(** * A shallow embedding of the Lobsters RSS filter worker (src/index.js)

    The worker fetches an upstream RSS feed, looks up a score for every
    entry (with throttle detection and exponential back-off), filters and
    sorts the entries, serialises them again and keeps the document in a
    key-value store.

    Conventions of the embedding:
    - JavaScript strings are [string]s of UTF-8 bytes; every pattern the
      source searches for is ASCII, so byte positions and code-unit
      positions of the matches coincide.
    - JavaScript numbers that the worker handles are integers (retry
      counters, delays in milliseconds, epoch timestamps, scores) in the
      range where doubles are exact; they are modelled by [Z], and by
      [jsnum] where the source can produce [NaN].
    - The host (network, store, [JSON.parse], [Date]) is not part of the
      repository: it enters the model as section variables.
    - [console.log]/[console.error] and the [Date.now()] timings that only
      feed them are not modelled. *)

From Stdlib Require Import ZArith String Ascii List Lia Bool Sorted Permutation.
From stdpp Require Import gmap strings.
Import ListNotations.

Local Open Scope string_scope.
Local Open Scope list_scope.
Local Open Scope Z_scope.

(** ** Strings *)

Definition dquote : ascii := "034"%char.
Definition newline : ascii := "010"%char.
Definition tab : ascii := "009"%char.

(** [text.includes(needle)] *)
Fixpoint includes (text needle : string) : bool :=
  String.prefix needle text ||
  match text with
  | EmptyString => false
  | String _ rest => includes rest needle
  end.

(** The characters that [String.prototype.trim] and [parseInt] skip
    (ECMAScript WhiteSpace and LineTerminator), in UTF-8. *)
Definition is_ascii_ws (c : ascii) : bool :=
  let n := nat_of_ascii c in
  ((9 <=? n) && (n <=? 13) || (n =? 32))%nat.

Definition is_ws2 (a b : ascii) : bool :=
  ((nat_of_ascii a =? 194) && (nat_of_ascii b =? 160))%nat.   (* U+00A0 *)

Definition is_ws3 (a b c : ascii) : bool :=
  let x := nat_of_ascii a in
  let y := nat_of_ascii b in
  let z := nat_of_ascii c in
  ((x =? 225) && (y =? 154) && (z =? 128)                      (* U+1680 *)
   || (x =? 226) && (y =? 128) && (128 <=? z) && (z <=? 138)   (* U+2000..U+200A *)
   || (x =? 226) && (y =? 128) && ((z =? 168) || (z =? 169))   (* U+2028, U+2029 *)
   || (x =? 226) && (y =? 128) && (z =? 175)                   (* U+202F *)
   || (x =? 226) && (y =? 129) && (z =? 159)                   (* U+205F *)
   || (x =? 227) && (y =? 128) && (z =? 128)                   (* U+3000 *)
   || (x =? 239) && (y =? 187) && (z =? 191))%nat.             (* U+FEFF *)

Fixpoint skip_ws (s : string) : string :=
  match s with
  | EmptyString => EmptyString
  | String a t =>
      if is_ascii_ws a then skip_ws t
      else match t with
           | String b t2 =>
               if is_ws2 a b then skip_ws t2
               else match t2 with
                    | String c t3 => if is_ws3 a b c then skip_ws t3 else s
                    | EmptyString => s
                    end
           | EmptyString => s
           end
  end.

Definition is_blank (s : string) : bool :=
  match skip_ws s with EmptyString => true | _ => false end.

Fixpoint trim_end (s : string) : string :=
  match s with
  | EmptyString => EmptyString
  | String c t => if is_blank s then EmptyString else String c (trim_end t)
  end.

(** [str.trim()] *)
Definition trim (s : string) : string := trim_end (skip_ws s).

(** ** JavaScript values *)

(** A number that is an integer, or [NaN].  It is exact where doubles are
    (below 2^53 in magnitude); beyond, [Num z] stands for the double
    nearest to [z]. *)
Inductive jsnum : Type :=
| Num (z : Z)
| NaN.

(** Result of an expression that may throw. *)
Inductive result (A : Type) : Type :=
| Ok (a : A)
| Throw (message : string).
Arguments Ok {A} a.
Arguments Throw {A} message.

(** What [JSON.parse] can return.
    - [JNum n] is a number that is integral, [n] being the integer that
      the digits [Number::toString] prints for it denote (the number
      itself up to 2^53);
    - [JFrac negative digits point] is a number that is not: with its
      sign, [0.d1...dk * 10^point] for the decimal digits [d1...dk] of
      [digits], which are those [Number::toString] prints (the fewest that
      give the number back);
    - [JInf negative] is what a literal beyond the range of doubles parses
      to;
    - an object is the list of its own properties. *)
#[warnings="-register-all"]
Inductive json : Type :=
| JNull
| JBool (b : bool)
| JNum (n : Z)
| JFrac (negative : bool) (digits : Z) (point : Z)
| JInf (negative : bool)
| JStr (s : string)
| JArr (elements : list json)
| JObj (fields : list (string * json)).

(** The own property [key] of an object. *)
Fixpoint assoc (key : string) (fields : list (string * json)) : option json :=
  match fields with
  | [] => None
  | (k, v) :: rest => if String.eqb k key then Some v else assoc key rest
  end.

(** Decimal digits of a non-negative integer, prepended to [acc]. *)
Definition digit_char (d : Z) : ascii := ascii_of_nat (48 + Z.to_nat d).

Fixpoint digits_of (fuel : nat) (n : Z) (acc : string) : string :=
  match fuel with
  | O => acc
  | S fuel' =>
      let acc' := String (digit_char (n mod 10)) acc in
      if n <? 10 then acc' else digits_of fuel' (n / 10) acc'
  end.

(** The plain decimal form of an integer. *)
Definition Z_to_string (n : Z) : string :=
  if n <? 0
  then String "-" (digits_of (S (Z.to_nat (Z.log2 (- n)))) (- n) EmptyString)
  else digits_of (S (Z.to_nat (Z.log2 n))) n EmptyString.

Fixpoint join (sep : string) (l : list string) : string :=
  match l with
  | [] => EmptyString
  | [x] => x
  | x :: rest => x +:+ sep +:+ join sep rest
  end.

(** The decimal digits of the magnitude of [n]. *)
Definition decimal (n : Z) : string := Z_to_string (Z.abs n).

Fixpoint zeros (n : nat) : string :=
  match n with
  | O => EmptyString
  | S n' => String "0" (zeros n')
  end.

(** [s] without its trailing zeros. *)
Fixpoint strip_zeros (s : string) : string :=
  match s with
  | EmptyString => EmptyString
  | String c t =>
      match strip_zeros t with
      | EmptyString => if Ascii.eqb c "0" then EmptyString else String c EmptyString
      | String c' t' => String c (String c' t')
      end
  end.

(** [d1.d2...dk e+x] or [d1.d2...dk e-x], without the point when [k = 1]. *)
Definition exponent_form (ds : string) (e : Z) : string :=
  match ds with
  | EmptyString => EmptyString
  | String d rest =>
      String d (match rest with
                | EmptyString => EmptyString
                | String _ _ => String "." rest
                end)
      +:+ (if e <? 0 then "e-" else "e+") +:+ decimal e
  end.

(** [Number::toString] of the positive number [0.d1...dk * 10^n], [ds]
    being the digits [d1...dk]: all digits and then zeros when the number
    is integral and below 10^21, a decimal point inside the digits or after
    [0.] and zeros when it is not below 10^-6, and the exponent form
    otherwise. *)
Definition positive_to_string (ds : string) (n : Z) : string :=
  let k := Z.of_nat (String.length ds) in
  if (k <=? n) && (n <=? 21) then ds +:+ zeros (Z.to_nat (n - k))
  else if (0 <? n) && (n <=? 21)
       then substring 0 (Z.to_nat n) ds +:+ "." +:+ substring (Z.to_nat n) (Z.to_nat (k - n)) ds
  else if (-6 <? n) && (n <=? 0) then "0." +:+ zeros (Z.to_nat (- n)) +:+ ds
  else exponent_form ds (n - 1).

Definition number_to_string (negative : bool) (ds : string) (n : Z) : string :=
  (if negative then "-" else EmptyString) +:+ positive_to_string ds n.

(** [ToString] of a JSON value.  An object whose own property [toString]
    hides the inherited method has no string form: the conversion throws a
    [TypeError].  An array is its elements joined by commas, [null] giving
    the empty string. *)
Fixpoint json_to_string (v : json) : result string :=
  match v with
  | JNull => Ok "null"
  | JBool true => Ok "true"
  | JBool false => Ok "false"
  | JNum n =>
      if n =? 0 then Ok "0"
      else Ok (number_to_string (n <? 0) (strip_zeros (decimal n))
                 (Z.of_nat (String.length (decimal n))))
  | JFrac negative digits point =>
      if digits =? 0 then Ok "0"
      else Ok (number_to_string negative (decimal digits) point)
  | JInf negative => Ok (if negative then "-Infinity" else "Infinity")
  | JStr s => Ok s
  | JArr l =>
      (fix join_elements (l : list json) : result string :=
         match l with
         | [] => Ok EmptyString
         | e :: rest =>
             match (match e with JNull => Ok EmptyString | _ => json_to_string e end) with
             | Throw message => Throw message
             | Ok first =>
                 match rest with
                 | [] => Ok first
                 | _ :: _ =>
                     match join_elements rest with
                     | Throw message => Throw message
                     | Ok others => Ok (first +:+ "," +:+ others)
                     end
                 end
             end
         end) l
  | JObj fields =>
      match assoc "toString" fields with
      | Some _ => Throw "Cannot convert object to primitive value"
      | None => Ok "[object Object]"
      end
  end.

(** [ToString] of a value; [None] is [undefined]. *)
Definition ToString (v : option json) : result string :=
  match v with
  | None => Ok "undefined"
  | Some j => json_to_string j
  end.

Definition digit_of (c : ascii) : option Z :=
  let n := nat_of_ascii c in
  if ((48 <=? n) && (n <=? 57))%nat then Some (Z.of_nat n - 48) else None.

Fixpoint scan_digits (acc : Z) (s : string) : Z :=
  match s with
  | EmptyString => acc
  | String c t =>
      match digit_of c with
      | Some d => scan_digits (acc * 10 + d) t
      | None => acc
      end
  end.

Definition starts_with_digit (s : string) : bool :=
  match s with
  | String c _ => match digit_of c with Some _ => true | None => false end
  | EmptyString => false
  end.

(** [parseInt(string, 10)] on a string: skip white space, read a sign,
    read the longest run of decimal digits; [NaN] when there is none. *)
Definition parseInt_string (s : string) : jsnum :=
  let s1 := skip_ws s in
  let '(sign, s2) :=
    match s1 with
    | String "-" t => (-1, t)
    | String "+" t => (1, t)
    | _ => (1, s1)
    end in
  if starts_with_digit s2 then Num (sign * scan_digits 0 s2) else NaN.

(** [parseInt(value, 10)]: the value is converted to a string first. *)
Definition parseInt (v : option json) : result jsnum :=
  match ToString v with
  | Ok text => Ok (parseInt_string text)
  | Throw message => Throw message
  end.

(** ** Configuration *)

Record Config : Type := {
  feedUrl : string;
  minimumScore : Z;
  cacheMaxAge : Z;
  cacheKey : string;
  rateLimitDelay : Z;
  maxRetries : Z;
  retryDelay : Z
}.

Definition CONFIG : Config := {|
  feedUrl := "https://lobste.rs/rss";
  minimumScore := 10;
  cacheMaxAge := 1800;
  cacheKey := "lobsters-rss-feed";
  rateLimitDelay := 200;
  maxRetries := 3;
  retryDelay := 1000
|}.

(** ** The world a run acts on *)

(** Effects of a run, as the host sees them. *)
Inductive event : Type :=
| EvFetch (url : string)
| EvSleep (ms : Z)
| EvGet (key : string)
| EvPut (key value : string) (ttl : Z)
| EvDelete (key : string).

(** [trace] lists the effects so far, the latest first; [kv] is the content
    of the store [env.RSS_CACHE]: value and [expirationTtl] per key. *)
Record World : Type := {
  trace : list event;
  kv : gmap string (string * Z)
}.

Definition record (e : event) (w : World) : World :=
  {| trace := e :: trace w; kv := kv w |}.

Definition is_fetch (e : event) : bool :=
  match e with EvFetch _ => true | _ => false end.

Definition is_store_op (e : event) : bool :=
  match e with EvGet _ | EvPut _ _ _ | EvDelete _ => true | _ => false end.

Definition is_get (e : event) : bool :=
  match e with EvGet _ => true | _ => false end.

(** Number of HTTP requests issued so far. *)
Definition fetch_count (w : World) : nat :=
  List.length (List.filter is_fetch (trace w)).

(** Number of store operations issued so far. *)
Definition store_count (w : World) : nat :=
  List.length (List.filter is_store_op (trace w)).

Definition sleep_of (e : event) : Z :=
  match e with EvSleep ms => ms | _ => 0 end.

(** Sum of all delays slept so far. *)
Definition total_slept (w : World) : Z :=
  fold_right Z.add 0 (map sleep_of (trace w)).

(** What [await fetch(url)] followed by [await response.text()] gives:
    the body, or the error thrown by either. *)
Inductive response : Type :=
| Failure (message : string)
| Body (text : string).

(** What [JSON.parse] gives: the value, or a [SyntaxError]. *)
Inductive parsed : Type :=
| Parsed (data : json)
| SyntaxError (message : string).

(** [const { score } = data]: reading a property of [null] throws a
    [TypeError]; a primitive or an array has no [score]. *)
Definition destructure_score (data : json) : result (option json) :=
  match data with
  | JNull => Throw "Cannot destructure property 'score' of 'data' as it is null."
  | JObj fields => Ok (assoc "score" fields)
  | _ => Ok None
  end.

(** [a > b] on numbers: false as soon as one side is [NaN]. *)
Definition js_gt (a b : jsnum) : bool :=
  match a, b with
  | Num x, Num y => y <? x
  | _, _ => false
  end.

(** [a >= b] on numbers. *)
Definition js_ge (a b : jsnum) : bool :=
  match a, b with
  | Num x, Num y => y <=? x
  | _, _ => false
  end.

(** [a - b] on numbers. *)
Definition js_sub (a b : jsnum) : jsnum :=
  match a, b with
  | Num x, Num y => Num (x - y)
  | _, _ => NaN
  end.

(** ** Articles *)

Record Article : Type := {
  title : string;
  author : string;
  link : string;
  comments : string;
  published : string;
  guid : string
}.

(** [{ ...article, timestamp, score }] *)
Record ScoredArticle : Type := {
  article :> Article;
  timestamp : jsnum;
  score : jsnum
}.

(** ** Regular expressions of the source

    Both have the shape [<TAG[^>]*>([\s\S]*?)</TAG>] with the [i] flag.
    [[^>]*] is greedy but must be followed by [>], so it stops at the first
    [>]; the lazy group stops at the first closing tag. *)

Definition lower (c : ascii) : ascii :=
  let n := nat_of_ascii c in
  if ((65 <=? n) && (n <=? 90))%nat then ascii_of_nat (n + 32) else c.

(** [s] without the prefix [p], compared without case. *)
Fixpoint strip_prefix_ci (p s : string) : option string :=
  match p with
  | EmptyString => Some s
  | String a p' =>
      match s with
      | String b s' => if Ascii.eqb (lower a) (lower b) then strip_prefix_ci p' s' else None
      | EmptyString => None
      end
  end.

(** [s] after its first [>]. *)
Fixpoint after_gt (s : string) : option string :=
  match s with
  | EmptyString => None
  | String c t => if Ascii.eqb c ">" then Some t else after_gt t
  end.

(** The text before the first [close] in [s], and the text after it. *)
Fixpoint until_close (close s : string) : option (string * string) :=
  match strip_prefix_ci close s with
  | Some rest => Some (EmptyString, rest)
  | None =>
      match s with
      | EmptyString => None
      | String c t =>
          match until_close close t with
          | Some (inner, rest) => Some (String c inner, rest)
          | None => None
          end
      end
  end.

(** A match of the expression for [tag] that starts at the head of [s]:
    the matched text, its group 1, and what follows the match.  The name is
    compared character by character, which is what the pattern built from
    it does when the name is made of letters and digits, as are the six
    names [parseArticleFromXml] passes and [item]; a name with characters
    that are special in a pattern is outside this model. *)
Definition match_here (tag s : string) : option (string * string * string) :=
  match strip_prefix_ci ("<" +:+ tag) s with
  | None => None
  | Some s1 =>
      match after_gt s1 with
      | None => None
      | Some s2 =>
          match until_close ("</" +:+ tag +:+ ">") s2 with
          | None => None
          | Some (inner, rest) =>
              Some (substring 0 (String.length s - String.length rest) s, inner, rest)
          end
      end
  end.

(** The leftmost match in [s]. *)
Fixpoint find_match (tag s : string) : option (string * string * string) :=
  match match_here tag s with
  | Some m => Some m
  | None =>
      match s with
      | EmptyString => None
      | String _ t => find_match tag t
      end
  end.

(** All matches, left to right, each search resuming after the previous
    match; a match is never empty, so [fuel] of the length of [s] is enough. *)
Fixpoint match_all_fuel (fuel : nat) (tag s : string) : list string :=
  match fuel with
  | O => []
  | S fuel' =>
      match find_match tag s with
      | None => []
      | Some (whole, _, rest) => whole :: match_all_fuel fuel' tag rest
      end
  end.

(** [xmlText.match(itemRegex)] with the [g] flag: [null] when nothing
    matches. *)
Definition match_items (xmlText : string) : option (list string) :=
  match match_all_fuel (String.length xmlText) "item" xmlText with
  | [] => None
  | l => Some l
  end.

(** [str.replace(/c/g, by)] for a pattern of one character. *)
Fixpoint replace_all (c : ascii) (by_ : string) (str : string) : string :=
  match str with
  | EmptyString => EmptyString
  | String a t =>
      if Ascii.eqb a c then by_ +:+ replace_all c by_ t
      else String a (replace_all c by_ t)
  end.

(** [str.split('@')[0]] *)
Fixpoint before_at (str : string) : string :=
  match str with
  | EmptyString => EmptyString
  | String a t => if Ascii.eqb a "@" then EmptyString else String a (before_at t)
  end.

(** [Array.prototype.sort(comparefn)].  A comparator result of [NaN] counts
    as [+0], and the sort is stable (ECMAScript requires both).  The model
    is a stable insertion sort: it gives the order of every engine when the
    comparator is consistent, as [by_timestamp_desc] is on numeric
    timestamps, and on a list that is already in an order the comparator
    accepts.  When a [NaN] timestamp makes the comparator inconsistent the
    order is left to the engine, and this is one of the permitted ones. *)
Section ArraySort.
Context {A : Type}.
Variable comparefn : A -> A -> jsnum.

Definition sort_compare (x y : A) : Z :=
  match comparefn x y with
  | Num v => v
  | NaN => 0
  end.

Fixpoint insert_sorted (x : A) (l : list A) : list A :=
  match l with
  | [] => [x]
  | y :: l' => if sort_compare x y <=? 0 then x :: l else y :: insert_sorted x l'
  end.

Definition array_sort (l : list A) : list A := fold_right insert_sorted [] l.
End ArraySort.

(** ** The store [env.RSS_CACHE] *)

(** The world after a successful [put(key, value, { expirationTtl: ttl })]. *)
Definition stored (key value : string) (ttl : Z) (w : World) : World :=
  {| trace := EvPut key value ttl :: trace w;
     kv := <[key := (value, ttl)]> (kv w) |}.

(** The store operations issued so far, the latest first. *)
Definition store_events (w : World) : list event :=
  List.filter is_store_op (trace w).

Section Store.
(** [kv_fault n] is the error, if any, that the store operation issued
    after [n] earlier ones throws. *)
Variable kv_fault : nat -> option string.

Definition kv_get (key : string) (w : World) : result (option string) * World :=
  let w1 := record (EvGet key) w in
  match kv_fault (store_count w) with
  | Some message => (Throw message, w1)
  | None => (Ok (fst <$> kv w !! key), w1)
  end.

Definition kv_put (key value : string) (ttl : Z) (w : World) : result unit * World :=
  match kv_fault (store_count w) with
  | Some message => (Throw message, record (EvPut key value ttl) w)
  | None => (Ok tt, stored key value ttl w)
  end.

Definition kv_delete (key : string) (w : World) : result unit * World :=
  match kv_fault (store_count w) with
  | Some message => (Throw message, record (EvDelete key) w)
  | None =>
      (Ok tt, {| trace := EvDelete key :: trace w; kv := delete key (kv w) |})
  end.
End Store.

(** ** RSSProcessor *)

Section RSSProcessor.

(** The host: [JSON.parse], [new Date(s).getTime()], and the network
    ([net n url] answers the GET of [url] issued after [n] earlier
    requests). *)
Variable JSON_parse : string -> parsed.
Variable Date_getTime : string -> jsnum.
Variable net : nat -> string -> response.

(** [this.config] *)
Variable config : Config.

Definition fetch (url : string) (w : World) : response * World :=
  (net (fetch_count w) url, record (EvFetch url) w).

Definition sleep (ms : Z) (w : World) : World := record (EvSleep ms) w.

Definition isThrottledResponse (text : string) : bool :=
  includes text "Throttled" || includes text "Rate limit".

(** [fetchArticleScore(url, retryCount)], with [fuel] bounding the depth
    of the re-entrant calls. *)
Fixpoint fetchArticleScore_fuel (fuel : nat) (url : string) (retryCount : Z)
    (w : World) : option (jsnum * World) :=
  match fuel with
  | O => None
  | S fuel' =>
      let '(r, w1) := fetch (url +:+ ".json") w in
      let retry :=
        let delay := retryDelay config * 2 ^ retryCount in
        fetchArticleScore_fuel fuel' url (retryCount + 1) (sleep delay w1) in
      let catch (message : string) :=
        if (retryCount <? maxRetries config) && includes message "Unexpected token"
        then retry
        else Some (Num 0, w1) in
      match r with
      | Failure message => catch message
      | Body responseText =>
          if isThrottledResponse responseText then
            if retryCount <? maxRetries config then retry
            else Some (Num 0, w1)
          else
            match JSON_parse responseText with
            | SyntaxError message => catch message
            | Parsed data =>
                match destructure_score data with
                | Throw message => catch message
                | Ok score =>
                    (* the log line interpolates [score], then [parseInt]
                       converts it to a string again *)
                    match parseInt score with
                    | Throw message => catch message
                    | Ok result => Some (result, w1)
                    end
                end
            end
      end
  end.

(** Calls still possible from [retryCount] on: the first one and one per
    remaining retry. *)
Definition attempts_left (retryCount : Z) : nat :=
  S (Z.to_nat (maxRetries config - retryCount)).

(** [fetchArticleScore(url, retryCount)].  The calls still possible are
    enough fuel, so the [None] branch is never taken: the lemmas
    [fetchArticleScore_run] and [fetchArticleScore_unfold] below show that
    this function satisfies the recursive equation of the source. *)
Definition fetchArticleScore (url : string) (retryCount : Z) (w : World)
    : jsnum * World :=
  match fetchArticleScore_fuel (attempts_left retryCount) url retryCount w with
  | Some r => r
  | None => (Num 0, w)
  end.

Definition extractTextContent (xml tag : string) : string :=
  match find_match tag xml with
  | Some (_, inner, _) => trim inner
  | None => EmptyString
  end.

Definition parseArticleFromXml (itemXml : string) : Article :=
  {| title := extractTextContent itemXml "title";
     author := before_at (extractTextContent itemXml "author");
     link := extractTextContent itemXml "link";
     comments := extractTextContent itemXml "comments";
     published := extractTextContent itemXml "pubDate";
     guid := extractTextContent itemXml "guid" |}.

Definition escapeXml (str : string) : string :=
  replace_all "'" "&#39;"
    (replace_all dquote "&quot;"
       (replace_all ">" "&gt;"
          (replace_all "<" "&lt;"
             (replace_all "&" "&amp;" str)))).

Definition NL : string := String newline EmptyString.
Definition TAB : string := String tab EmptyString.
Definition quoted (s : string) : string := String dquote (s +:+ String dquote EmptyString).

Definition generateRssItem (a : ScoredArticle) : string :=
  TAB +:+ "<item>" +:+ NL +:+
  TAB +:+ TAB +:+ "<title>" +:+ escapeXml (title a) +:+ "</title>" +:+ NL +:+
  TAB +:+ TAB +:+ "<author>" +:+ escapeXml (author a) +:+ "</author>" +:+ NL +:+
  TAB +:+ TAB +:+ "<link>" +:+ escapeXml (link a) +:+ "</link>" +:+ NL +:+
  TAB +:+ TAB +:+ "<comments>" +:+ escapeXml (comments a) +:+ "</comments>" +:+ NL +:+
  TAB +:+ TAB +:+ "<wfw:commentRss>" +:+ escapeXml (comments a) +:+ "</wfw:commentRss>" +:+ NL +:+
  TAB +:+ TAB +:+ "<guid isPermaLink=" +:+ quoted "false" +:+ ">" +:+ escapeXml (guid a) +:+ "</guid>" +:+ NL +:+
  TAB +:+ TAB +:+ "<pubDate>" +:+ published a +:+ "</pubDate>" +:+ NL +:+
  TAB +:+ "</item>".

(** [(a, b) => b.timestamp - a.timestamp] *)
Definition by_timestamp_desc (a b : ScoredArticle) : jsnum :=
  js_sub (timestamp b) (timestamp a).

(** [(article) => article.score > this.config.minimumScore] *)
Definition meets_minimum (a : ScoredArticle) : bool :=
  js_gt (score a) (Num (minimumScore config)).

Definition filteredAndSorted (articles : list ScoredArticle) : list ScoredArticle :=
  array_sort by_timestamp_desc (List.filter meets_minimum articles).

Definition feed_header : string :=
  "<?xml version=" +:+ quoted "1.0" +:+ " encoding=" +:+ quoted "UTF-8" +:+ "?>" +:+ NL +:+
  "<rss version=" +:+ quoted "2.0" +:+
  " xmlns:atom=" +:+ quoted "http://www.w3.org/2005/Atom" +:+
  " xmlns:wfw=" +:+ quoted "http://wellformedweb.org/CommentAPI/" +:+
  " xmlns:slash=" +:+ quoted "http://purl.org/rss/1.0/modules/slash/" +:+ ">" +:+ NL +:+
  TAB +:+ "<channel>" +:+ NL +:+
  TAB +:+ TAB +:+ "<title>Lobsters</title>" +:+ NL +:+
  TAB +:+ TAB +:+ "<link>https://lobste.rs</link>" +:+ NL +:+
  TAB +:+ TAB +:+ "<description></description>" +:+ NL.

Definition feed_footer : string :=
  NL +:+ TAB +:+ "</channel>" +:+ NL +:+ "</rss>".

Definition writeArticlesFeed (articles : list ScoredArticle) : string :=
  let rssItems := join NL (map generateRssItem (filteredAndSorted articles)) in
  feed_header +:+ rssItems +:+ feed_footer.

(** The scoring loop of [fetchAllArticles]: one score request per
    article, in order, and a pause after each but the last. *)
Fixpoint score_articles (parsedArticles : list Article) (w : World)
    : list ScoredArticle * World :=
  match parsedArticles with
  | [] => ([], w)
  | a :: rest =>
      let '(s, w1) := fetchArticleScore (comments a) 0 w in
      let scored :=
        {| article := a; timestamp := Date_getTime (published a); score := s |} in
      let w2 :=
        match rest with
        | [] => w1
        | _ :: _ => sleep (rateLimitDelay config) w1
        end in
      let '(others, w3) := score_articles rest w2 in
      (scored :: others, w3)
  end.

Definition has_comments (a : Article) : bool :=
  negb (String.eqb (comments a) EmptyString).

Definition fetchAllArticles (url : string) (w : World)
    : list ScoredArticle * World :=
  let '(r, w1) := fetch url w in
  match r with
  | Failure _ => ([], w1)
  | Body xmlText =>
      let items :=
        match match_items xmlText with
        | Some l => l
        | None => []
        end in
      let parsedArticles :=
        List.filter has_comments (map parseArticleFromXml items) in
      score_articles parsedArticles w1
  end.

Variable kv_fault : nat -> option string.

Definition warmCache (w : World) : bool * World :=
  let '(articles, w1) := fetchAllArticles (feedUrl config) w in
  let rssFeed := writeArticlesFeed articles in
  let '(r, w2) := kv_put kv_fault (cacheKey config) rssFeed (cacheMaxAge config) w1 in
  match r with
  | Ok _ => (true, w2)
  | Throw _ => (false, w2)
  end.

End RSSProcessor.

(** ** The worker: [fetch] and [scheduled] handlers *)

(** [new URL(request.url)], as far as the handler reads it. *)
Record Request : Type := {
  protocol : string;
  host : string;
  pathname : string;
  searchParams : list (string * string)
}.

Record Response : Type := {
  status : Z;
  headers : list (string * string);
  body : string
}.

Definition searchParams_has (name : string) (request : Request) : bool :=
  existsb (fun p => String.eqb (fst p) name) (searchParams request).

(** A value as a condition: [null] and the empty string are falsy. *)
Definition truthy (v : option string) : bool :=
  match v with
  | Some s => negb (String.eqb s EmptyString)
  | None => false
  end.

Definition feed_response (document marker : string) : Response :=
  {| status := 200;
     headers := [("Content-Type", "application/rss+xml; charset=utf-8");
                 ("Cache-Control", "public, max-age=" +:+ Z_to_string (cacheMaxAge CONFIG));
                 ("X-Cache", marker)];
     body := document |}.

Definition error_response : Response :=
  {| status := 500; headers := []; body := "Error generating RSS feed" |}.

Section Worker.
Variable JSON_parse : string -> parsed.
Variable Date_getTime : string -> jsnum.
Variable net : nat -> string -> response.
Variable kv_fault : nat -> option string.

(** The part of the handler after the cache read: run the pipeline,
    store the document, serve it. *)
Definition generate_fresh (w : World) : Response * World :=
  let '(articles, w1) :=
    fetchAllArticles JSON_parse Date_getTime net CONFIG (feedUrl CONFIG) w in
  let rssFeed := writeArticlesFeed CONFIG articles in
  let '(r, w2) := kv_put kv_fault (cacheKey CONFIG) rssFeed (cacheMaxAge CONFIG) w1 in
  match r with
  | Ok _ => (feed_response rssFeed "MISS", w2)
  | Throw _ => (error_response, w2)
  end.

(** [export default { fetch(request, env, ctx) }]: the response, or the
    error the handler rejects with. *)
Definition worker_fetch (request : Request) (w : World) : result Response * World :=
  let forceRefresh :=
    searchParams_has "force_refresh" request || searchParams_has "clear_cache" request in
  if String.eqb (pathname request) "/clear-cache" then
    let '(r, w1) := kv_delete kv_fault (cacheKey CONFIG) w in
    match r with
    | Throw message => (Throw message, w1)
    | Ok _ =>
        (Ok {| status := 200; headers := [("Content-Type", "text/plain")];
               body := "Cache cleared successfully" |}, w1)
    end
  else if String.eqb (pathname request) "/index.xml" then
    (Ok {| status := 302;
           headers := [("Location", protocol request +:+ "//" +:+ host request +:+ "/")];
           body := EmptyString |}, w)
  else if negb forceRefresh then
    let '(r, w1) := kv_get kv_fault (cacheKey CONFIG) w in
    match r with
    | Throw _ => (Ok error_response, w1)
    | Ok cachedFeed =>
        if truthy cachedFeed
        then (Ok (feed_response (default EmptyString cachedFeed) "HIT"), w1)
        else let '(resp, w2) := generate_fresh w1 in (Ok resp, w2)
    end
  else
    let '(resp, w1) := generate_fresh w in (Ok resp, w1).


End Worker.

(** ** The score fetcher, one attempt at a time

    What one call of [fetchArticleScore] decides from the response it got:
    to return a score, or to sleep and call itself again.  The lemma
    [fetchArticleScore_fuel_step] shows that the function above is the
    iteration of [attempt]. *)

Inductive outcome : Type :=
| Return (score : jsnum)
| Retry (delay : Z).

Section Attempt.
Variable JSON_parse : string -> parsed.
Variable config : Config.

Definition backoff_delay (retryCount : Z) : Z :=
  retryDelay config * 2 ^ retryCount.

Definition on_error (retryCount : Z) (message : string) : outcome :=
  if (retryCount <? maxRetries config) && includes message "Unexpected token"
  then Retry (backoff_delay retryCount)
  else Return (Num 0).

Definition attempt (retryCount : Z) (r : response) : outcome :=
  match r with
  | Failure message => on_error retryCount message
  | Body responseText =>
      if isThrottledResponse responseText then
        if retryCount <? maxRetries config
        then Retry (backoff_delay retryCount)
        else Return (Num 0)
      else
        match JSON_parse responseText with
        | SyntaxError message => on_error retryCount message
        | Parsed data =>
            match destructure_score data with
            | Throw message => on_error retryCount message
            | Ok score =>
                match parseInt score with
                | Throw message => on_error retryCount message
                | Ok result => Return result
                end
            end
        end
  end.
End Attempt.

(** Sum of [n] consecutive back-off delays, the first one for attempt
    [from]: [retryDelay * 2^from + ... + retryDelay * 2^(from+n-1)]. *)
Fixpoint backoff_sum (retryDelay : Z) (from : Z) (n : nat) : Z :=
  match n with
  | O => 0
  | S n' => retryDelay * 2 ^ from + backoff_sum retryDelay (from + 1) n'
  end.

(** ** A sample host *)

Definition empty_world : World := {| trace := []; kv := ∅ |}.

(** The body [{"score":v}]. *)
Definition score_body (v : Z) : string :=
  "{" +:+ quoted "score" +:+ ":" +:+ Z_to_string v +:+ "}".

(** The body [{"score":42,"title":"Throttled"}]. *)
Definition marked_body : string :=
  "{" +:+ quoted "score" +:+ ":42," +:+ quoted "title" +:+ ":" +:+ quoted "Throttled" +:+ "}".

(** [JSON.parse] on the few texts the examples use. *)
Definition sample_JSON_parse (text : string) : parsed :=
  if String.eqb text "{}" then Parsed (JObj [])
  else if String.eqb text "null" then Parsed JNull
  else if String.eqb text (score_body 15) then Parsed (JObj [("score", JNum 15)])
  else if String.eqb text marked_body
       then Parsed (JObj [("score", JNum 42); ("title", JStr "Throttled")])
  else SyntaxError "Unexpected token".

(** An endpoint that throttles every request. *)
Definition always_throttled (n : nat) (url : string) : response := Body "Throttled".

(** An endpoint that throttles the first [k] requests and then answers
    with score 15. *)
Definition throttled_then_ok (k : nat) (n : nat) (url : string) : response :=
  if (n <? k)%nat then Body "Rate limit exceeded" else Body (score_body 15).

(** An endpoint that answers every request with the body [{}]. *)
Definition empty_object_endpoint (n : nat) (url : string) : response := Body "{}".

(** An endpoint that answers every request with [marked_body]. *)
Definition marked_endpoint (n : nat) (url : string) : response := Body marked_body.

(** ** Vocabulary of the statements about the feed document *)

(** The timestamp is a number. *)
Definition numeric (a : ScoredArticle) : Prop := exists t, timestamp a = Num t.

(** The timestamp is the number [t]. *)
Definition timestamp_is (t : Z) (a : ScoredArticle) : bool :=
  match timestamp a with
  | Num x => x =? t
  | NaN => false
  end.

(** [a.timestamp >= b.timestamp] *)
Definition newer_or_equal (a b : ScoredArticle) : Prop :=
  js_ge (timestamp a) (timestamp b) = true.

(** The sort has no reason to exchange [a] and a later [b]. *)
Definition in_order (a b : ScoredArticle) : Prop :=
  sort_compare by_timestamp_desc a b <= 0.

(** Escaping as the specification words it: every reserved character is
    replaced by its entity, every other character is kept. *)
Definition escape_char (c : ascii) : string :=
  if Ascii.eqb c "&" then "&amp;"
  else if Ascii.eqb c "<" then "&lt;"
  else if Ascii.eqb c ">" then "&gt;"
  else if Ascii.eqb c dquote then "&quot;"
  else if Ascii.eqb c "'" then "&#39;"
  else String c EmptyString.

Fixpoint escape_each (str : string) : string :=
  match str with
  | EmptyString => EmptyString
  | String c t => escape_char c +:+ escape_each t
  end.

Definition is_reserved (c : ascii) : bool :=
  Ascii.eqb c "&" || Ascii.eqb c "<" || Ascii.eqb c ">" || Ascii.eqb c dquote
  || Ascii.eqb c "'".

(** Number of characters of [str] that satisfy [p]. *)
Fixpoint count_chars (p : ascii -> bool) (str : string) : nat :=
  match str with
  | EmptyString => 0%nat
  | String c t => ((if p c then 1 else 0) + count_chars p t)%nat
  end.

(** The item element around six texts that are ready to be emitted. *)
Definition item_template (title_ author_ link_ comments_ guid_ pubDate_ : string) : string :=
  TAB +:+ "<item>" +:+ NL +:+
  TAB +:+ TAB +:+ "<title>" +:+ title_ +:+ "</title>" +:+ NL +:+
  TAB +:+ TAB +:+ "<author>" +:+ author_ +:+ "</author>" +:+ NL +:+
  TAB +:+ TAB +:+ "<link>" +:+ link_ +:+ "</link>" +:+ NL +:+
  TAB +:+ TAB +:+ "<comments>" +:+ comments_ +:+ "</comments>" +:+ NL +:+
  TAB +:+ TAB +:+ "<wfw:commentRss>" +:+ comments_ +:+ "</wfw:commentRss>" +:+ NL +:+
  TAB +:+ TAB +:+ "<guid isPermaLink=" +:+ quoted "false" +:+ ">" +:+ guid_ +:+ "</guid>" +:+ NL +:+
  TAB +:+ TAB +:+ "<pubDate>" +:+ pubDate_ +:+ "</pubDate>" +:+ NL +:+
  TAB +:+ "</item>".

(** ** Sample articles *)

Definition sample_article (name date : string) : Article :=
  {| title := name;
     author := "alice";
     link := "https://example.com/" +:+ name;
     comments := "https://lobste.rs/s/" +:+ name;
     published := date;
     guid := "https://lobste.rs/s/" +:+ name |}.

Definition scored (name : string) (ts sc : jsnum) : ScoredArticle :=
  {| article := sample_article name "Sat, 18 Oct 2025 08:29:22 -0500";
     timestamp := ts; score := sc |}.

(** Three articles above the minimum score; the middle one has a date that
    does not parse. *)
Definition articles_with_NaN_inside : list ScoredArticle :=
  [scored "a" (Num 1) (Num 20); scored "b" NaN (Num 20); scored "c" (Num 2) (Num 20)].

(** An article whose date does not parse, followed by one that has a
    timestamp. *)
Definition articles_with_NaN_first : list ScoredArticle :=
  [scored "b" NaN (Num 20); scored "a" (Num 1) (Num 20)].

Definition articles_with_NaN_then_desc : list ScoredArticle :=
  [scored "b" NaN (Num 20); scored "e" (Num 5) (Num 20); scored "c" (Num 3) (Num 20)].

(** Articles with numeric timestamps: one at the minimum score, two with the
    same timestamp. *)
Definition articles_numeric : list ScoredArticle :=
  [scored "a" (Num 1) (Num 20); scored "b" (Num 3) (Num 10);
   scored "c" (Num 2) (Num 11); scored "d" (Num 2) (Num 50)].

(** The feed and the score endpoint of the repository's test: one item,
    score 15. *)
Definition sample_feed : string :=
  "<rss version=" +:+ quoted "2.0" +:+ "><channel><title>Lobsters</title>" +:+
  "<link>https://lobste.rs</link><description></description>" +:+
  "<item><title>Test Article</title><author>testuser</author>" +:+
  "<link>https://lobste.rs/s/test/test-article</link>" +:+
  "<comments>https://lobste.rs/s/test/test-article</comments>" +:+
  "<pubDate>Sat, 18 Oct 2025 08:29:22 -0500</pubDate>" +:+
  "<guid>test-guid</guid></item></channel></rss>".

Definition sample_net (n : nat) (url : string) : response :=
  if String.eqb url "https://lobste.rs/rss" then Body sample_feed
  else if includes url ".json" then Body (score_body 15)
  else Failure "Unexpected URL".

Definition sample_Date_getTime (date : string) : jsnum :=
  if String.eqb date "Sat, 18 Oct 2025 08:29:22 -0500" then Num 1760794162000 else NaN.

(** A network on which every request fails. *)
Definition failing_net (n : nat) (url : string) : response := Failure "fetch failed".

(** A feed without items. *)
Definition empty_feed_net (n : nat) (url : string) : response :=
  Body "<rss><channel><title>Lobsters</title></channel></rss>".

(** A store that never fails. *)
Definition reliable_store (n : nat) : option string := None.

Definition root_request : Request :=
  {| protocol := "http:"; host := "example.com"; pathname := "/"; searchParams := [] |}.

Definition refresh_request : Request :=
  {| protocol := "http:"; host := "example.com"; pathname := "/";
     searchParams := [("force_refresh", "1")] |}.

(** A world whose store holds a document under the cache key. *)
Definition warm_world : World :=
  {| trace := [];
     kv := <[cacheKey CONFIG := ("<rss>cached</rss>", cacheMaxAge CONFIG)]> ∅ |}.

Definition index_request : Request :=
  {| protocol := "http:"; host := "example.com"; pathname := "/index.xml";
     searchParams := [] |}.

(** A feed whose only item has no [comments] element. *)
Definition feed_without_comments : string :=
  "<rss><channel><item><title>Test Article</title>" +:+
  "<link>https://lobste.rs/s/test/test-article</link>" +:+
  "<guid>test-guid</guid></item></channel></rss>".

Definition net_without_comments (n : nat) (url : string) : response :=
  Body feed_without_comments.

(** The response a handler run resolved to, and a test on its body. *)
Definition served (r : result Response * World) : option Response :=
  match fst r with
  | Ok resp => Some resp
  | Throw _ => None
  end.

Definition body_contains (needle : string) (r : result Response * World) : bool :=
  match served r with
  | Some resp => includes (body resp) needle
  | None => false
  end.

(** ** Vocabulary of the statements about parsing and the handlers *)

(** The character [c] does not occur in [s]. *)
Definition lacks (c : ascii) (s : string) : Prop :=
  count_chars (Ascii.eqb c) s = 0%nat.

(** [p] and [q] are equal up to the case of ASCII letters. *)
Definition ci_eqb (p q : string) : bool :=
  match strip_prefix_ci p q with
  | Some EmptyString => true
  | _ => false
  end.

(** Comparing [p] with the head of [lit] finds a difference before [lit]
    ends. *)
Fixpoint mismatch_within (p lit : string) : bool :=
  match p, lit with
  | String a p', String b lit' =>
      if Ascii.eqb (lower a) (lower b) then mismatch_within p' lit' else true
  | _, _ => false
  end.

(** No position of [lit] can start an occurrence of [p], whatever follows
    [lit]. *)
Fixpoint skips (p lit : string) : bool :=
  match lit with
  | EmptyString => true
  | String _ t => mismatch_within p lit && skips p t
  end.

(** A tag name made of ASCII letters and digits: spliced into the pattern
    of [extractTextContent], each of its characters stands for itself. *)
Definition is_alphanumeric (c : ascii) : bool :=
  let n := nat_of_ascii c in
  (((48 <=? n) && (n <=? 57)) || ((65 <=? n) && (n <=? 90))
   || ((97 <=? n) && (n <=? 122)))%nat.

Fixpoint plain_tag (tag : string) : bool :=
  match tag with
  | EmptyString => true
  | String c t => is_alphanumeric c && plain_tag t
  end.

(** [opening] is an opening tag for [tag]: [<tag], then anything without
    [>], then [>]. *)
Definition opens (tag opening : string) : bool :=
  match strip_prefix_ci ("<" +:+ tag) opening with
  | Some attrs =>
      match after_gt attrs with
      | Some EmptyString => true
      | _ => false
      end
  | None => false
  end.

(** A response after which [fetchArticleScore] calls itself again while
    retries remain: a throttle marker, or an error whose message holds
    [Unexpected token]. *)
Definition retryable (JSON_parse : string -> parsed) (r : response) : bool :=
  match r with
  | Failure message => includes message "Unexpected token"
  | Body text =>
      isThrottledResponse text ||
      match JSON_parse text with
      | SyntaxError message => includes message "Unexpected token"
      | Parsed _ => false
      end
  end.

(** What [fetchAllArticles] starts from when the feed arrived: the
    articles of the item fragments that have [comments], in feed order. *)
Definition articles_of_feed (xmlText : string) : list Article :=
  List.filter has_comments
    (map parseArticleFromXml
       (match match_items xmlText with Some l => l | None => [] end)).

Definition bypasses (request : Request) : bool :=
  searchParams_has "force_refresh" request || searchParams_has "clear_cache" request.

Definition clear_request : Request :=
  {| protocol := "http:"; host := "example.com"; pathname := "/clear-cache";
     searchParams := [] |}.

(** An endpoint whose first two answers are not JSON and whose third one
    has score 15. *)
Definition garbled_then_ok (n : nat) (url : string) : response :=
  if (n <? 2)%nat then Body "<html>Bad gateway</html>" else Body (score_body 15).

(** A store that fails on every operation. *)
Definition broken_store (n : nat) : option string := Some "KV unavailable".

(** A feed text: each item fragment after its gap, then a tail. *)
Fixpoint feed_text (elements : list (string * string)) (tail : string) : string :=
  match elements with
  | [] => tail
  | (gap, fragment) :: rest => gap +:+ fragment +:+ feed_text rest tail
  end.

(** [fragment] is an item element: an opening tag for [item], a content in
    which no position can start [</item>], and the closing tag. *)
Definition item_fragment (fragment : string) : Prop :=
  exists opening inner closing,
    fragment = opening +:+ inner +:+ closing /\
    opens "item" opening = true /\
    skips "</item>" inner = true /\
    ci_eqb "</item>" closing = true.

(** What [generateRssItem] writes after its leading tab. *)
Definition item_element (a : ScoredArticle) : string :=
  "<item>" +:+ NL +:+
  TAB +:+ TAB +:+ "<title>" +:+ escapeXml (title a) +:+ "</title>" +:+ NL +:+
  TAB +:+ TAB +:+ "<author>" +:+ escapeXml (author a) +:+ "</author>" +:+ NL +:+
  TAB +:+ TAB +:+ "<link>" +:+ escapeXml (link a) +:+ "</link>" +:+ NL +:+
  TAB +:+ TAB +:+ "<comments>" +:+ escapeXml (comments a) +:+ "</comments>" +:+ NL +:+
  TAB +:+ TAB +:+ "<wfw:commentRss>" +:+ escapeXml (comments a) +:+ "</wfw:commentRss>" +:+ NL +:+
  TAB +:+ TAB +:+ "<guid isPermaLink=" +:+ quoted "false" +:+ ">" +:+ escapeXml (guid a) +:+ "</guid>" +:+ NL +:+
  TAB +:+ TAB +:+ "<pubDate>" +:+ published a +:+ "</pubDate>" +:+ NL +:+
  TAB +:+ "</item>".

(** The elements of a document: each item after the text that precedes
    it, the first one after [gap]. *)
Fixpoint elements_from (gap : string) (emitted : list ScoredArticle)
    : list (string * string) :=
  match emitted with
  | [] => []
  | a :: rest => (gap +:+ TAB, item_element a) :: elements_from NL rest
  end.

(** The effects of a run with [n] retries, in the order they happen: a
    request, then for each retry its back-off delay and the next request. *)
Fixpoint retry_events (url : string) (retryDelay : Z) (from : Z) (n : nat) : list event :=
  match n with
  | O => [EvFetch url]
  | S n' =>
      EvFetch url :: EvSleep (retryDelay * 2 ^ from)
      :: retry_events url retryDelay (from + 1) n'
  end.

(** What the last call of a run returns, read off the response it got: 0
    for every response that ends in the error branches, and
    [parseInt(score, 10)] for a body without throttle marker that parses,
    is not [null] and whose [score] has a string form. *)
Definition final_score (JSON_parse : string -> parsed) (r : response) : jsnum :=
  match r with
  | Failure _ => Num 0
  | Body text =>
      if isThrottledResponse text then Num 0
      else
        match JSON_parse text with
        | SyntaxError _ => Num 0
        | Parsed data =>
            match destructure_score data with
            | Throw _ => Num 0
            | Ok score =>
                match parseInt score with
                | Throw _ => Num 0
                | Ok result => result
                end
            end
        end
  end.

(** The body [{"score":1e21}]. *)
Definition huge_score_body : string := "{" +:+ quoted "score" +:+ ":1e21}".

(** The body [{"score":{"toString":1}}]. *)
Definition opaque_score_body : string :=
  "{" +:+ quoted "score" +:+ ":{" +:+ quoted "toString" +:+ ":1}}".

(** [JSON.parse] on the texts of the examples, these two included. *)
Definition sample_JSON_parse_numbers (text : string) : parsed :=
  if String.eqb text huge_score_body then Parsed (JObj [("score", JNum (10 ^ 21))])
  else if String.eqb text opaque_score_body
       then Parsed (JObj [("score", JObj [("toString", JNum 1)])])
  else sample_JSON_parse text.

(** An endpoint that answers every request with [huge_score_body]. *)
Definition huge_score_endpoint (n : nat) (url : string) : response := Body huge_score_body.

(** * Properties *)

(** ** Numbers and their decimal form *)

Lemma digit_of_digit_char (d : Z) :
  0 <= d < 10 -> digit_of (digit_char d) = Some d.
Proof.
  intros Hd.
  assert (Hcases : d = 0 \/ d = 1 \/ d = 2 \/ d = 3 \/ d = 4 \/
                   d = 5 \/ d = 6 \/ d = 7 \/ d = 8 \/ d = 9) by lia.
  repeat (destruct Hcases as [-> | Hcases]; [reflexivity |]).
  subst d. reflexivity.
Qed.

Lemma digits_of_scan (fuel : nat) :
  forall (n : Z) (acc : string),
    (0 < fuel)%nat -> 0 <= n < 2 ^ Z.of_nat fuel ->
    starts_with_digit (digits_of fuel n acc) = true /\
    exists k : nat, forall a,
      scan_digits a (digits_of fuel n acc) = scan_digits (a * 10 ^ Z.of_nat k + n) acc.
Proof.
  induction fuel as [| fuel IH]; intros n acc Hfuel Hn; [lia |].
  cbn [digits_of].
  assert (Hmod : 0 <= n mod 10 < 10) by (apply Z.mod_pos_bound; lia).
  destruct (Z.ltb_spec n 10) as [Hsmall | Hbig].
  - split.
    + cbn [starts_with_digit]. now rewrite digit_of_digit_char.
    + exists 1%nat. intros a. cbn [scan_digits].
      rewrite digit_of_digit_char by assumption.
      rewrite Z.mod_small by lia. f_equal.
  - assert (Hpow : 2 ^ Z.of_nat (S fuel) = 2 * 2 ^ Z.of_nat fuel).
    { rewrite Nat2Z.inj_succ, Z.pow_succ_r by lia. reflexivity. }
    assert (Hfuel' : (0 < fuel)%nat).
    { destruct fuel; [cbn in Hn; lia | lia]. }
    assert (Hdiv : 0 <= n / 10 < 2 ^ Z.of_nat fuel).
    { split; [apply Z.div_pos; lia |].
      apply Z.div_lt_upper_bound; lia. }
    destruct (IH (n / 10) (String (digit_char (n mod 10)) acc) Hfuel' Hdiv)
      as [Hstart [k Hk]].
    split; [exact Hstart |].
    exists (S k). intros a. rewrite Hk.
    cbn [scan_digits]. rewrite digit_of_digit_char by assumption.
    f_equal.
    rewrite Nat2Z.inj_succ, Z.pow_succ_r by lia.
    pose proof (Z.div_mod n 10 ltac:(lia)). lia.
Qed.

Lemma digits_of_value (n : Z) :
  0 <= n ->
  let s := digits_of (S (Z.to_nat (Z.log2 n))) n EmptyString in
  starts_with_digit s = true /\ scan_digits 0 s = n.
Proof.
  intros Hn s.
  assert (Hlt : n < 2 ^ Z.of_nat (S (Z.to_nat (Z.log2 n)))).
  { rewrite Nat2Z.inj_succ, Z2Nat.id by apply Z.log2_nonneg.
    destruct (Z.eq_dec n 0) as [-> | Hne]; [reflexivity |].
    apply Z.log2_spec. lia. }
  destruct (digits_of_scan (S (Z.to_nat (Z.log2 n))) n EmptyString) as [Hs [k Hk]];
    [lia | lia |].
  split; [exact Hs |].
  subst s. rewrite Hk. cbn [scan_digits]. lia.
Qed.

Lemma skip_ws_digit (s : string) :
  starts_with_digit s = true -> skip_ws s = s.
Proof.
  destruct s as [| c t]; [reflexivity |].
  cbn [starts_with_digit].
  destruct c as [[] [] [] [] [] [] [] []]; try discriminate; intros _;
    destruct t as [| b [| c' t3]]; reflexivity.
Qed.

Lemma parseInt_string_digits (s : string) :
  starts_with_digit s = true -> parseInt_string s = Num (scan_digits 0 s).
Proof.
  intros Hs. unfold parseInt_string. rewrite (skip_ws_digit s Hs).
  destruct s as [| c t]; [discriminate |].
  cbn [starts_with_digit] in Hs.
  destruct c as [[] [] [] [] [] [] [] []]; try discriminate Hs;
    cbv beta iota; rewrite Z.mul_1_l; reflexivity.
Qed.

Lemma parseInt_string_minus (s : string) :
  starts_with_digit s = true ->
  parseInt_string (String "-" s) = Num (- scan_digits 0 s).
Proof.
  intros Hs. unfold parseInt_string.
  assert (Hskip : skip_ws (String "-" s) = String "-" s).
  { destruct s as [| b [| c' t3]]; reflexivity. }
  rewrite Hskip. cbv beta iota. rewrite Hs.
  destruct (scan_digits 0 s); reflexivity.
Qed.

Lemma digits_of_length (fuel : nat) :
  forall (n : Z) (acc : string) (m : nat),
    (1 <= m)%nat -> 0 <= n < 10 ^ Z.of_nat m ->
    (String.length (digits_of fuel n acc) <= m + String.length acc)%nat.
Proof.
  induction fuel as [| fuel IH]; intros n acc m Hm Hn; cbn [digits_of]; [lia |].
  destruct (Z.ltb_spec n 10) as [Hsmall | Hbig]; [cbn [String.length]; lia |].
  destruct m as [| [| m]]; [lia | cbn in Hn; lia |].
  assert (Hdiv : 0 <= n / 10 < 10 ^ Z.of_nat (S m)).
  { rewrite (Nat2Z.inj_succ (S m)), Z.pow_succ_r in Hn by lia.
    split; [apply Z.div_pos; lia | apply Z.div_lt_upper_bound; lia]. }
  specialize (IH (n / 10) (String (digit_char (n mod 10)) acc) (S m) ltac:(lia) Hdiv).
  cbn [String.length] in IH. lia.
Qed.

Lemma decimal_nonneg (n : Z) :
  0 <= n -> decimal n = digits_of (S (Z.to_nat (Z.log2 n))) n EmptyString.
Proof.
  intros Hn. unfold decimal, Z_to_string. rewrite Z.abs_eq by exact Hn.
  destruct (Z.ltb_spec n 0); [lia | reflexivity].
Qed.

Lemma decimal_length (n : Z) (m : nat) :
  (1 <= m)%nat -> Z.abs n < 10 ^ Z.of_nat m -> (String.length (decimal n) <= m)%nat.
Proof.
  intros Hm Hn. unfold decimal, Z_to_string.
  destruct (Z.ltb_spec (Z.abs n) 0) as [Hneg | _]; [lia |].
  pose proof (digits_of_length (S (Z.to_nat (Z.log2 (Z.abs n)))) (Z.abs n) EmptyString m Hm
                ltac:(lia)) as Hlen.
  cbn [String.length] in Hlen. lia.
Qed.

Lemma length_zeros (n : nat) : String.length (zeros n) = n.
Proof. induction n as [| n IH]; [reflexivity |]. cbn [zeros String.length]. now rewrite IH. Qed.

(** Stripping the trailing zeros and putting them back. *)
Lemma strip_zeros_pad (s : string) :
  (String.length (strip_zeros s) <= String.length s)%nat /\
  strip_zeros s +:+ zeros (String.length s - String.length (strip_zeros s)) = s.
Proof.
  induction s as [| c t [IHlen IHpad]]; [split; reflexivity |].
  cbn [strip_zeros]. destruct (strip_zeros t) as [| c' t'] eqn:Hstrip.
  - cbn [String.length] in IHpad. rewrite Nat.sub_0_r in IHpad.
    change (zeros (String.length t) = t) in IHpad.
    destruct (Ascii.eqb_spec c "0") as [-> | Hne]; cbn [String.length].
    + split; [lia |]. rewrite Nat.sub_0_r.
      change (String "0" (zeros (String.length t)) = String "0" t). now rewrite IHpad.
    + split; [lia |].
      replace (S (String.length t) - 1)%nat with (String.length t) by lia.
      change (String c (zeros (String.length t)) = String c t). now rewrite IHpad.
  - cbn [String.length] in *. split; [lia |].
    replace (S (String.length t) - S (S (String.length t')))%nat
      with (String.length t - S (String.length t'))%nat by lia.
    change (String c (String c' t' +:+ zeros (String.length t - S (String.length t')))
            = String c t).
    now rewrite IHpad.
Qed.

(** Below 10^21 an integral number is printed in plain decimal. *)
Lemma json_to_string_JNum (v : Z) :
  Z.abs v < 10 ^ 21 -> json_to_string (JNum v) = Ok (Z_to_string v).
Proof.
  intros Hv. cbn [json_to_string].
  destruct (Z.eqb_spec v 0) as [-> | Hne]; [reflexivity |].
  f_equal. unfold number_to_string, positive_to_string.
  pose proof (decimal_length v 21 ltac:(lia) Hv) as Hlen.
  destruct (strip_zeros_pad (decimal v)) as [Hstrip Hpad].
  replace ((Z.of_nat (String.length (strip_zeros (decimal v)))
            <=? Z.of_nat (String.length (decimal v)))
           && (Z.of_nat (String.length (decimal v)) <=? 21)) with true
    by (symmetry; apply andb_true_intro; split; apply Z.leb_le; lia).
  rewrite <- Nat2Z.inj_sub, Nat2Z.id by exact Hstrip.
  rewrite Hpad. unfold decimal, Z_to_string.
  destruct (Z.ltb_spec v 0) as [Hneg | Hpos].
  - rewrite Z.abs_neq by lia. destruct (Z.ltb_spec (- v) 0); [lia | reflexivity].
  - rewrite Z.abs_eq by lia. destruct (Z.ltb_spec v 0); [lia | reflexivity].
Qed.

(** [parseInt] of an integral score below 10^21 gives the integer back. *)
Lemma parseInt_JNum (v : Z) :
  Z.abs v < 10 ^ 21 -> parseInt (Some (JNum v)) = Ok (Num v).
Proof.
  intros Hv. unfold parseInt, ToString. rewrite (json_to_string_JNum v Hv).
  f_equal. unfold Z_to_string.
  destruct (Z.ltb_spec v 0) as [Hneg | Hpos].
  - destruct (digits_of_value (- v)) as [Hs Hval]; [lia |].
    rewrite parseInt_string_minus by exact Hs. rewrite Hval. f_equal. lia.
  - destruct (digits_of_value v Hpos) as [Hs Hval].
    rewrite parseInt_string_digits by exact Hs. now rewrite Hval.
Qed.

(** ** The score fetcher *)

Section ScoreFetcherFacts.
Variable JSON_parse : string -> parsed.
Variable net : nat -> string -> response.
Variable config : Config.

Local Abbreviation run_fuel := (fetchArticleScore_fuel JSON_parse net config).
Local Abbreviation run := (fetchArticleScore JSON_parse net config).
Local Abbreviation step := (attempt JSON_parse config).
Local Abbreviation left_from := (attempts_left config).

Lemma fetch_count_record_fetch (url : string) (w : World) :
  fetch_count (record (EvFetch url) w) = S (fetch_count w).
Proof. reflexivity. Qed.

Lemma fetch_count_sleep (ms : Z) (w : World) :
  fetch_count (sleep ms w) = fetch_count w.
Proof. reflexivity. Qed.

Lemma total_slept_record_fetch (url : string) (w : World) :
  total_slept (record (EvFetch url) w) = total_slept w.
Proof. reflexivity. Qed.

Lemma total_slept_sleep (ms : Z) (w : World) :
  total_slept (sleep ms w) = ms + total_slept w.
Proof. reflexivity. Qed.

(** One call is one request followed by what [attempt] decides. *)
Lemma fetchArticleScore_fuel_step (fuel : nat) (url : string) (rc : Z) (w : World) :
  run_fuel (S fuel) url rc w =
  match step rc (net (fetch_count w) (url +:+ ".json")) with
  | Return s => Some (s, record (EvFetch (url +:+ ".json")) w)
  | Retry delay =>
      run_fuel fuel url (rc + 1) (sleep delay (record (EvFetch (url +:+ ".json")) w))
  end.
Proof.
  cbn [fetchArticleScore_fuel fetch].
  unfold attempt, on_error, backoff_delay.
  destruct (net (fetch_count w) (url +:+ ".json")) as [message | text].
  - destruct ((rc <? maxRetries config) && includes message "Unexpected token");
      reflexivity.
  - destruct (isThrottledResponse text).
    + destruct (rc <? maxRetries config); reflexivity.
    + destruct (JSON_parse text) as [data | message].
      * destruct (destructure_score data) as [sc | message].
        -- destruct (parseInt sc) as [result | message]; [reflexivity |].
           destruct ((rc <? maxRetries config) && includes message "Unexpected token");
             reflexivity.
        -- destruct ((rc <? maxRetries config) && includes message "Unexpected token");
             reflexivity.
      * destruct ((rc <? maxRetries config) && includes message "Unexpected token");
          reflexivity.
Qed.

Lemma on_error_retry_inv (rc : Z) (message : string) (delay : Z) :
  on_error config rc message = Retry delay ->
  rc < maxRetries config /\ delay = backoff_delay config rc.
Proof.
  unfold on_error. destruct (Z.ltb_spec rc (maxRetries config)) as [Hlt | Hge];
    destruct (includes message "Unexpected token"); cbn [andb]; intros H;
    try discriminate H.
  injection H as <-. now split.
Qed.

(** A retry is only ever decided while retries remain, and its delay is
    the back-off delay of the attempt. *)
Lemma attempt_retry_inv (rc : Z) (r : response) (delay : Z) :
  step rc r = Retry delay ->
  rc < maxRetries config /\ delay = backoff_delay config rc.
Proof.
  unfold attempt. destruct r as [message | text]; [apply on_error_retry_inv |].
  destruct (isThrottledResponse text).
  - destruct (Z.ltb_spec rc (maxRetries config)) as [Hlt | Hge]; intros H;
      [injection H as <-; now split | discriminate H].
  - destruct (JSON_parse text) as [data | message]; [| apply on_error_retry_inv].
    destruct (destructure_score data) as [sc | message]; [| apply on_error_retry_inv].
    destruct (parseInt sc) as [result | message]; [discriminate | apply on_error_retry_inv].
Qed.

Lemma attempts_left_succ (rc : Z) :
  rc < maxRetries config -> left_from rc = S (left_from (rc + 1)).
Proof.
  intros Hlt. unfold attempts_left. f_equal.
  replace (maxRetries config - rc) with (Z.succ (maxRetries config - (rc + 1))) by lia.
  rewrite Z2Nat.inj_succ by lia. reflexivity.
Qed.

(** The shape of every run: [n] retries, each decided by [attempt] and
    slept with its back-off delay, then an attempt that returns. *)
Lemma fetchArticleScore_fuel_run (url : string) (fuel : nat) :
  forall (rc : Z) (w : World),
    (left_from rc <= fuel)%nat ->
    exists (n : nat) (s : jsnum) (w' : World),
      run_fuel fuel url rc w = Some (s, w') /\
      (n <= Z.to_nat (maxRetries config - rc))%nat /\
      fetch_count w' = (fetch_count w + S n)%nat /\
      total_slept w' = total_slept w + backoff_sum (retryDelay config) rc n /\
      kv w' = kv w /\
      (forall i, (i < n)%nat ->
         step (rc + Z.of_nat i) (net (fetch_count w + i)%nat (url +:+ ".json"))
         = Retry (backoff_delay config (rc + Z.of_nat i))) /\
      step (rc + Z.of_nat n) (net (fetch_count w + n)%nat (url +:+ ".json")) = Return s.
Proof.
  induction fuel as [| fuel IH]; intros rc w Hfuel.
  - unfold attempts_left in Hfuel. lia.
  - rewrite fetchArticleScore_fuel_step.
    destruct (step rc (net (fetch_count w) (url +:+ ".json"))) as [s | delay] eqn:Hstep.
    + exists 0%nat, s, (record (EvFetch (url +:+ ".json")) w).
      repeat split.
      * lia.
      * rewrite fetch_count_record_fetch. lia.
      * rewrite total_slept_record_fetch. cbn [backoff_sum]. lia.
      * intros i Hi. lia.
      * rewrite Z.add_0_r, Nat.add_0_r. exact Hstep.
    + destruct (attempt_retry_inv _ _ _ Hstep) as [Hlt ->].
      rewrite (attempts_left_succ rc Hlt) in Hfuel.
      destruct (IH (rc + 1)
                  (sleep (backoff_delay config rc) (record (EvFetch (url +:+ ".json")) w)))
        as (n & s & w' & Hrun & Hn & Hcount & Hslept & Hkv & Hretries & Hlast); [lia |].
      rewrite fetch_count_sleep, fetch_count_record_fetch in *.
      rewrite total_slept_sleep, total_slept_record_fetch in Hslept.
      exists (S n), s, w'. repeat split.
      * exact Hrun.
      * replace (maxRetries config - rc) with (Z.succ (maxRetries config - (rc + 1))) by lia.
        rewrite Z2Nat.inj_succ by lia. lia.
      * lia.
      * cbn [backoff_sum]. unfold backoff_delay in Hslept. lia.
      * exact Hkv.
      * intros [| i] Hi.
        -- rewrite Z.add_0_r, Nat.add_0_r. exact Hstep.
        -- replace (rc + Z.of_nat (S i)) with (rc + 1 + Z.of_nat i) by lia.
           replace (fetch_count w + S i)%nat with (S (fetch_count w) + i)%nat by lia.
           apply Hretries. lia.
      * replace (rc + Z.of_nat (S n)) with (rc + 1 + Z.of_nat n) by lia.
        replace (fetch_count w + S n)%nat with (S (fetch_count w) + n)%nat by lia.
        exact Hlast.
Qed.

(** [fetchArticleScore] always returns: the calls it can still make from
    [retryCount] on are enough fuel. *)
Lemma fetchArticleScore_run (url : string) (rc : Z) (w : World) :
  exists (n : nat) (s : jsnum) (w' : World),
    run url rc w = (s, w') /\
    run_fuel (left_from rc) url rc w = Some (s, w') /\
    (n <= Z.to_nat (maxRetries config - rc))%nat /\
    fetch_count w' = (fetch_count w + S n)%nat /\
    total_slept w' = total_slept w + backoff_sum (retryDelay config) rc n /\
    kv w' = kv w /\
    (forall i, (i < n)%nat ->
       step (rc + Z.of_nat i) (net (fetch_count w + i)%nat (url +:+ ".json"))
       = Retry (backoff_delay config (rc + Z.of_nat i))) /\
    step (rc + Z.of_nat n) (net (fetch_count w + n)%nat (url +:+ ".json")) = Return s.
Proof.
  destruct (fetchArticleScore_fuel_run url (left_from rc) rc w (Nat.le_refl _))
    as (n & s & w' & Hrun & Hrest).
  exists n, s, w'. split; [| split; [exact Hrun | exact Hrest]].
  unfold fetchArticleScore. now rewrite Hrun.
Qed.

(** The recursive equation of the source. *)
Lemma fetchArticleScore_unfold (url : string) (rc : Z) (w : World) :
  run url rc w =
  match step rc (net (fetch_count w) (url +:+ ".json")) with
  | Return s => (s, record (EvFetch (url +:+ ".json")) w)
  | Retry delay =>
      run url (rc + 1) (sleep delay (record (EvFetch (url +:+ ".json")) w))
  end.
Proof.
  unfold fetchArticleScore at 1.
  change (left_from rc) with (S (Z.to_nat (maxRetries config - rc))).
  rewrite fetchArticleScore_fuel_step.
  destruct (step rc (net (fetch_count w) (url +:+ ".json"))) as [s | delay] eqn:Hstep;
    [reflexivity |].
  destruct (attempt_retry_inv _ _ _ Hstep) as [Hlt _].
  pose proof (attempts_left_succ rc Hlt) as Hleft.
  unfold attempts_left in Hleft. injection Hleft as Hleft.
  rewrite Hleft.
  destruct (fetchArticleScore_fuel_run url (left_from (rc + 1)) (rc + 1)
              (sleep delay (record (EvFetch (url +:+ ".json")) w)) (Nat.le_refl _))
    as (n & s & w' & Hrun & _).
  unfold fetchArticleScore.
  change (S (Z.to_nat (maxRetries config - (rc + 1)))) with (left_from (rc + 1)).
  now rewrite Hrun.
Qed.

Lemma attempt_throttled (rc : Z) (text : string) :
  isThrottledResponse text = true ->
  step rc (Body text) =
  if rc <? maxRetries config then Retry (backoff_delay config rc) else Return (Num 0).
Proof. intros H. unfold attempt. now rewrite H. Qed.

Lemma attempt_scored (rc : Z) (text : string) (data : json) (sc : option json)
    (result : jsnum) :
  isThrottledResponse text = false ->
  JSON_parse text = Parsed data ->
  destructure_score data = Ok sc ->
  parseInt sc = Ok result ->
  step rc (Body text) = Return result.
Proof. intros H1 H2 H3 H4. unfold attempt. now rewrite H1, H2, H3, H4. Qed.

Lemma backoff_sum_nonneg (d from : Z) (n : nat) :
  0 <= d -> 0 <= backoff_sum d from n.
Proof.
  intros Hd. revert from. induction n as [| n IH]; intros from; cbn [backoff_sum]; [lia |].
  specialize (IH (from + 1)).
  assert (0 <= 2 ^ from) by (apply Z.pow_nonneg; lia). nia.
Qed.

Lemma backoff_sum_mono (d from : Z) (n m : nat) :
  0 <= d -> (n <= m)%nat -> backoff_sum d from n <= backoff_sum d from m.
Proof.
  intros Hd. revert from m. induction n as [| n IH]; intros from m Hle.
  - cbn [backoff_sum]. now apply backoff_sum_nonneg.
  - destruct m as [| m]; [lia |]. cbn [backoff_sum].
    specialize (IH (from + 1) m). lia.
Qed.

(** More fuel does not change the result of a run. *)
Lemma fetchArticleScore_fuel_mono (url : string) (fuel : nat) :
  forall (rc : Z) (w : World) (r : jsnum * World),
    run_fuel fuel url rc w = Some r ->
    forall fuel', (fuel <= fuel')%nat -> run_fuel fuel' url rc w = Some r.
Proof.
  induction fuel as [| fuel IH]; intros rc w r Hrun fuel' Hle; [discriminate |].
  destruct fuel' as [| fuel']; [lia |].
  rewrite fetchArticleScore_fuel_step in *.
  destruct (step rc (net (fetch_count w) (url +:+ ".json"))) as [s | delay];
    [exact Hrun |].
  apply (IH _ _ _ Hrun). lia.
Qed.

(** The calls a run can make are enough fuel, and so is any larger fuel. *)
Lemma fetchArticleScore_enough_fuel (url : string) (rc : Z) (w : World) :
  forall fuel, (left_from rc <= fuel)%nat ->
    run_fuel fuel url rc w = Some (run url rc w).
Proof.
  intros fuel Hle.
  destruct (fetchArticleScore_run url rc w) as (n & s & w' & Hrun & Hfuel & _).
  rewrite Hrun. exact (fetchArticleScore_fuel_mono url _ _ _ _ Hfuel fuel Hle).
Qed.

Lemma attempt_return (rc : Z) (r : response) (s : jsnum) :
  step rc r = Return s -> s = final_score JSON_parse r.
Proof.
  assert (Herr : forall message, on_error config rc message = Return s -> s = Num 0).
  { intros message. unfold on_error.
    destruct ((rc <? maxRetries config) && includes message "Unexpected token");
      congruence. }
  unfold attempt, final_score. destruct r as [message | text]; [apply Herr |].
  destruct (isThrottledResponse text).
  - destruct (rc <? maxRetries config); congruence.
  - destruct (JSON_parse text) as [data | message]; [| apply Herr].
    destruct (destructure_score data) as [sc | message]; [| apply Herr].
    destruct (parseInt sc) as [result | message]; [congruence | apply Herr].
Qed.

(** C1, as the code has it.  When the endpoint answers the first [k]
    requests of a run with a throttle-marker body, [k < maxRetries], and the
    next request with a JSON body whose [score] is the integer [v], with
    [|v| < 10^21], [fetchArticleScore] returns [v] (with any fuel from the
    possible calls on); the delays it slept add up to the first [k] back-off
    delays [retryDelay * 2^0 + ... + retryDelay * 2^(k-1)], and it made
    [k + 1] requests. *)
Theorem fetchArticleScore_throttled_then_success
    (url : string) (w : World) (k : nat) (v : Z) :
  Z.of_nat k < maxRetries config ->
  Z.abs v < 10 ^ 21 ->
  (forall i, (i < k)%nat ->
     exists text, net (fetch_count w + i)%nat (url +:+ ".json") = Body text /\
                  isThrottledResponse text = true) ->
  (exists text data,
     net (fetch_count w + k)%nat (url +:+ ".json") = Body text /\
     isThrottledResponse text = false /\
     JSON_parse text = Parsed data /\
     destructure_score data = Ok (Some (JNum v))) ->
  exists w',
    run url 0 w = (Num v, w') /\
    (forall fuel, (left_from 0 <= fuel)%nat -> run_fuel fuel url 0 w = Some (Num v, w')) /\
    total_slept w' = total_slept w + backoff_sum (retryDelay config) 0 k /\
    fetch_count w' = (fetch_count w + S k)%nat.
Proof.
  intros Hk Hv Hthrottled (text & data & Hnet & Hclean & Hparse & Hscore).
  pose proof (fetchArticleScore_enough_fuel url 0 w) as Hfuel.
  destruct (fetchArticleScore_run url 0 w)
    as (n & s & w' & Hrun & _ & _ & Hcount & Hslept & _ & Hretries & Hlast).
  rewrite Hrun in Hfuel.
  assert (Hn : n = k).
  { destruct (Nat.lt_trichotomy n k) as [Hlt | [Heq | Hgt]]; [| exact Heq |].
    - destruct (Hthrottled n Hlt) as (t & Hnet_n & Hmark).
      rewrite Hnet_n, (attempt_throttled _ _ Hmark) in Hlast.
      destruct (Z.ltb_spec (0 + Z.of_nat n) (maxRetries config)); [discriminate | lia].
    - specialize (Hretries k Hgt).
      rewrite Hnet, (attempt_scored _ _ _ _ _ Hclean Hparse Hscore (parseInt_JNum v Hv))
        in Hretries.
      discriminate. }
  subst n.
  rewrite Hnet, (attempt_scored _ _ _ _ _ Hclean Hparse Hscore (parseInt_JNum v Hv))
    in Hlast.
  injection Hlast as <-.
  exists w'. repeat split; assumption.
Qed.

(** C2, as the code has it.  When the endpoint answers every request with a
    throttle-marker body, [fetchArticleScore] returns 0 after exactly
    [maxRetries + 1] requests: the first one and [maxRetries] retries, each
    retry after its back-off delay. *)
Theorem fetchArticleScore_always_throttled (url : string) (w : World) :
  0 <= maxRetries config ->
  (forall n, exists text,
     net n (url +:+ ".json") = Body text /\ isThrottledResponse text = true) ->
  exists w',
    run url 0 w = (Num 0, w') /\
    Z.of_nat (fetch_count w') - Z.of_nat (fetch_count w) = maxRetries config + 1 /\
    total_slept w' =
      total_slept w + backoff_sum (retryDelay config) 0 (Z.to_nat (maxRetries config)).
Proof.
  intros Hmax Hthrottled.
  destruct (fetchArticleScore_run url 0 w)
    as (n & s & w' & Hrun & _ & Hn & Hcount & Hslept & _ & _ & Hlast).
  destruct (Hthrottled (fetch_count w + n)%nat) as (t & Hnet & Hmark).
  rewrite Hnet, (attempt_throttled _ _ Hmark) in Hlast.
  destruct (Z.ltb_spec (0 + Z.of_nat n) (maxRetries config)) as [Hlt | Hge];
    [discriminate |].
  injection Hlast as <-.
  rewrite Z.sub_0_r in Hn.
  assert (Heq : n = Z.to_nat (maxRetries config)) by lia.
  exists w'. repeat split.
  - exact Hrun.
  - lia.
  - now rewrite <- Heq.
Qed.

(** C3, as the code has it.  Whatever the endpoint does, [fetchArticleScore]
    returns (it raises nothing, and its possible calls are enough fuel), and
    its result is decided by the last response of the run: 0 for a failed
    request, a throttled body, a body that is not JSON, the body [null]
    and a [score] without string form; [parseInt(score, 10)], an integer or
    [NaN], for every other body. *)
Theorem fetchArticleScore_total (url : string) (w : World) :
  exists (s : jsnum) (w' : World),
    (forall fuel, (left_from 0 <= fuel)%nat -> run_fuel fuel url 0 w = Some (s, w')) /\
    run url 0 w = (s, w') /\
    (fetch_count w < fetch_count w')%nat /\
    s = final_score JSON_parse (net (Nat.pred (fetch_count w')) (url +:+ ".json")).
Proof.
  pose proof (fetchArticleScore_enough_fuel url 0 w) as Hfuel.
  destruct (fetchArticleScore_run url 0 w)
    as (n & s & w' & Hrun & _ & _ & Hcount & _ & _ & _ & Hlast).
  rewrite Hrun in Hfuel.
  exists s, w'. split; [exact Hfuel | split; [exact Hrun | split; [lia |]]].
  replace (Nat.pred (fetch_count w')) with (fetch_count w + n)%nat by lia.
  exact (attempt_return _ _ _ Hlast).
Qed.

(** C4. Whatever the endpoint does, one run of [fetchArticleScore]
    returns: the [maxRetries + 1] calls it can make, and any larger fuel,
    are enough.  It sleeps at most
    [retryDelay * 2^0 + ... + retryDelay * 2^(maxRetries-1)] in total and
    makes at least one and at most [maxRetries + 1] requests. *)
Theorem fetchArticleScore_backoff_bounded (url : string) (w : World) :
  0 <= retryDelay config ->
  exists (s : jsnum) (w' : World),
    (forall fuel, (S (Z.to_nat (maxRetries config)) <= fuel)%nat ->
       run_fuel fuel url 0 w = Some (s, w')) /\
    run url 0 w = (s, w') /\
    total_slept w <= total_slept w' /\
    total_slept w' - total_slept w
      <= backoff_sum (retryDelay config) 0 (Z.to_nat (maxRetries config)) /\
    (1 <= fetch_count w' - fetch_count w <= S (Z.to_nat (maxRetries config)))%nat.
Proof.
  intros Hdelay.
  pose proof (fetchArticleScore_enough_fuel url 0 w) as Hfuel.
  destruct (fetchArticleScore_run url 0 w)
    as (n & s & w' & Hrun & _ & Hn & Hcount & Hslept & _).
  rewrite Hrun in Hfuel. unfold attempts_left in Hfuel.
  rewrite Z.sub_0_r in Hn, Hfuel.
  exists s, w'. split; [exact Hfuel | split; [exact Hrun |]].
  pose proof (backoff_sum_mono (retryDelay config) 0 _ _ Hdelay Hn).
  pose proof (backoff_sum_nonneg (retryDelay config) 0 n Hdelay).
  repeat split; lia.
Qed.

End ScoreFetcherFacts.

(** The result of an attempt does not depend on what [JSON.parse] would
    make of a body that carries a throttle marker. *)
Lemma attempt_parse_irrelevant (JSON_parse JSON_parse' : string -> parsed)
    (config : Config) (rc : Z) (r : response) :
  (forall text, isThrottledResponse text = false -> JSON_parse' text = JSON_parse text) ->
  attempt JSON_parse' config rc r = attempt JSON_parse config rc r.
Proof.
  intros Hagree. destruct r as [message | text]; [reflexivity |].
  unfold attempt. destruct (isThrottledResponse text) eqn:Hmark; [reflexivity |].
  now rewrite (Hagree text Hmark).
Qed.

Lemma fetchArticleScore_fuel_parse_irrelevant
    (JSON_parse JSON_parse' : string -> parsed) (net : nat -> string -> response)
    (config : Config) (url : string) (fuel : nat) :
  (forall text, isThrottledResponse text = false -> JSON_parse' text = JSON_parse text) ->
  forall (rc : Z) (w : World),
    fetchArticleScore_fuel JSON_parse' net config fuel url rc w =
    fetchArticleScore_fuel JSON_parse net config fuel url rc w.
Proof.
  intros Hagree. induction fuel as [| fuel IH]; intros rc w; [reflexivity |].
  rewrite !fetchArticleScore_fuel_step.
  rewrite (attempt_parse_irrelevant JSON_parse JSON_parse' config rc _ Hagree).
  destruct (attempt JSON_parse config rc (net (fetch_count w) (url +:+ ".json")));
    [reflexivity | apply IH].
Qed.

(** C10. A body that carries a throttle marker is handled as throttled even
    when it is valid JSON with a [score]: the call sleeps the back-off delay
    and calls itself again while retries remain, and returns 0 once they
    are used up; and the result of a run is the same for any [JSON.parse]
    that differs only on marked bodies, so their parsed score is never
    returned. *)
Theorem throttle_marker_precedes_parsing
    (JSON_parse : string -> parsed) (net : nat -> string -> response)
    (config : Config) (url : string) (rc : Z) (w : World) (text : string) :
  net (fetch_count w) (url +:+ ".json") = Body text ->
  isThrottledResponse text = true ->
  (exists data v, JSON_parse text = Parsed data /\ destructure_score data = Ok (Some v)) ->
  fetchArticleScore JSON_parse net config url rc w =
    (if rc <? maxRetries config
     then fetchArticleScore JSON_parse net config url (rc + 1)
            (sleep (retryDelay config * 2 ^ rc) (record (EvFetch (url +:+ ".json")) w))
     else (Num 0, record (EvFetch (url +:+ ".json")) w)) /\
  forall JSON_parse' : string -> parsed,
    (forall t, isThrottledResponse t = false -> JSON_parse' t = JSON_parse t) ->
    fetchArticleScore JSON_parse' net config url rc w =
    fetchArticleScore JSON_parse net config url rc w.
Proof.
  intros Hnet Hmark _. split.
  - rewrite fetchArticleScore_unfold, Hnet, (attempt_throttled _ _ _ _ Hmark).
    destruct (rc <? maxRetries config); reflexivity.
  - intros JSON_parse' Hagree. unfold fetchArticleScore.
    now rewrite (fetchArticleScore_fuel_parse_irrelevant JSON_parse JSON_parse' net
                   config url _ Hagree).
Qed.

(** *** The sample host at work *)

Lemma fetchArticleScore_throttled_then_success_witness :
  Z.of_nat 2 < maxRetries CONFIG /\
  Z.abs 15 < 10 ^ 21 /\
  exists w',
    fetchArticleScore sample_JSON_parse (throttled_then_ok 2) CONFIG "https://lobste.rs/s/abc"
      0 empty_world = (Num 15, w') /\
    total_slept w' = total_slept empty_world + backoff_sum (retryDelay CONFIG) 0 2 /\
    fetch_count w' = (fetch_count empty_world + 3)%nat.
Proof.
  split; [cbn; lia |]. split; [cbn; lia |].
  destruct (fetchArticleScore_throttled_then_success sample_JSON_parse (throttled_then_ok 2)
              CONFIG "https://lobste.rs/s/abc" empty_world 2 15)
    as (w' & Hrun & _ & Hslept & Hcount).
  - cbn. lia.
  - cbn. lia.
  - intros i Hi. exists "Rate limit exceeded".
    destruct i as [| [| i]]; [split; reflexivity | split; reflexivity | lia].
  - exists (score_body 15), (JObj [("score", JNum 15)]).
    repeat split; reflexivity.
  - exists w'. repeat split; assumption.
Defined.

(** C1, as stated, fails for a score of 10^21 and beyond: the number is
    converted to the string [1e+21], of which [parseInt] reads the [1]. *)
Lemma huge_score_returns_one :
  sample_JSON_parse_numbers huge_score_body = Parsed (JObj [("score", JNum (10 ^ 21))]) /\
  ToString (Some (JNum (10 ^ 21))) = Ok "1e+21" /\
  exists w',
    fetchArticleScore sample_JSON_parse_numbers huge_score_endpoint CONFIG
      "https://lobste.rs/s/abc" 0 empty_world = (Num 1, w') /\
    Num 1 <> Num (10 ^ 21).
Proof.
  split; [reflexivity | split; [reflexivity |]].
  eexists. split; [vm_compute; reflexivity | discriminate].
Qed.

(** A [score] that has no string form makes the conversion throw; the
    error is caught and the call returns 0 after its one request. *)
Lemma unconvertible_score_returns_zero :
  exists w',
    fetchArticleScore sample_JSON_parse_numbers (fun _ _ => Body opaque_score_body) CONFIG
      "https://lobste.rs/s/abc" 0 empty_world = (Num 0, w') /\
    fetch_count w' = 1%nat /\ total_slept w' = 0.
Proof. eexists. split; [vm_compute; reflexivity | split; reflexivity]. Qed.

Lemma fetchArticleScore_always_throttled_witness :
  0 <= maxRetries CONFIG /\
  exists w',
    fetchArticleScore sample_JSON_parse always_throttled CONFIG "https://lobste.rs/s/abc"
      0 empty_world = (Num 0, w') /\
    Z.of_nat (fetch_count w') - Z.of_nat (fetch_count empty_world) = maxRetries CONFIG + 1 /\
    total_slept w' =
      total_slept empty_world
      + backoff_sum (retryDelay CONFIG) 0 (Z.to_nat (maxRetries CONFIG)).
Proof.
  split; [cbn; lia |].
  apply (fetchArticleScore_always_throttled sample_JSON_parse always_throttled CONFIG
           "https://lobste.rs/s/abc" empty_world).
  - cbn. lia.
  - intros n. exists "Throttled". split; reflexivity.
Defined.

(** C2, as stated, fails: with the default [maxRetries = 3] an endpoint that
    always throttles is asked four times, not three, before 0 is returned. *)
Lemma always_throttled_four_requests :
  exists w',
    fetchArticleScore sample_JSON_parse always_throttled CONFIG "https://lobste.rs/s/abc"
      0 empty_world = (Num 0, w') /\
    fetch_count w' = 4%nat /\
    Z.of_nat (fetch_count w') <> maxRetries CONFIG.
Proof.
  eexists. split; [vm_compute; reflexivity |].
  split; [reflexivity | vm_compute; discriminate].
Qed.

(** C3, as stated, fails: a JSON body without [score] makes
    [fetchArticleScore] return [NaN], which is not an integer. *)
Lemma missing_score_gives_NaN :
  exists w',
    fetchArticleScore sample_JSON_parse empty_object_endpoint CONFIG
      "https://lobste.rs/s/abc" 0 empty_world = (NaN, w').
Proof. eexists. vm_compute. reflexivity. Qed.

Lemma fetchArticleScore_backoff_bounded_witness :
  0 <= retryDelay CONFIG /\
  exists (s : jsnum) (w' : World),
    fetchArticleScore_fuel sample_JSON_parse (throttled_then_ok 2) CONFIG 4
      "https://lobste.rs/s/abc" 0 empty_world = Some (s, w') /\
    fetchArticleScore sample_JSON_parse (throttled_then_ok 2) CONFIG "https://lobste.rs/s/abc"
      0 empty_world = (s, w') /\
    total_slept w' - total_slept empty_world
      <= backoff_sum (retryDelay CONFIG) 0 (Z.to_nat (maxRetries CONFIG)) /\
    (1 <= fetch_count w' - fetch_count empty_world <= S (Z.to_nat (maxRetries CONFIG)))%nat.
Proof.
  split; [cbn; lia |].
  destruct (fetchArticleScore_backoff_bounded sample_JSON_parse (throttled_then_ok 2) CONFIG
              "https://lobste.rs/s/abc" empty_world)
    as (s & w' & Hfuel & Hrun & _ & Hslept & Hcount).
  - cbn. lia.
  - exists s, w'. split; [apply Hfuel; cbn; lia |]. repeat split; try assumption; lia.
Defined.

Lemma throttle_marker_precedes_parsing_witness :
  isThrottledResponse marked_body = true /\
  sample_JSON_parse marked_body
    = Parsed (JObj [("score", JNum 42); ("title", JStr "Throttled")]) /\
  fetchArticleScore sample_JSON_parse marked_endpoint CONFIG "https://lobste.rs/s/abc"
    3 empty_world
  = (Num 0, record (EvFetch ("https://lobste.rs/s/abc" +:+ ".json")) empty_world).
Proof.
  split; [reflexivity | split; [reflexivity |]].
  destruct (throttle_marker_precedes_parsing sample_JSON_parse marked_endpoint CONFIG
              "https://lobste.rs/s/abc" 3 empty_world marked_body) as [Hstep _].
  - reflexivity.
  - reflexivity.
  - exists (JObj [("score", JNum 42); ("title", JStr "Throttled")]), (JNum 42).
    split; reflexivity.
  - exact Hstep.
Defined.

(** ** Filtering and sorting *)

Section ArraySortFacts.
Context {A : Type}.
Variable comparefn : A -> A -> jsnum.

Lemma insert_sorted_perm (x : A) (l : list A) :
  Permutation (insert_sorted comparefn x l) (x :: l).
Proof.
  induction l as [| y l IH]; cbn [insert_sorted]; [reflexivity |].
  destruct (sort_compare comparefn x y <=? 0); [reflexivity |].
  rewrite IH. apply perm_swap.
Qed.

Lemma array_sort_perm (l : list A) : Permutation (array_sort comparefn l) l.
Proof.
  induction l as [| x l IH]; cbn [array_sort fold_right]; [reflexivity |].
  fold (array_sort comparefn l). rewrite insert_sorted_perm. now rewrite IH.
Qed.

(** A list that the comparator already accepts pair by pair comes back as
    it is. *)
Lemma array_sort_in_order (l : list A) :
  Sorted (fun a b => sort_compare comparefn a b <= 0) l -> array_sort comparefn l = l.
Proof.
  induction 1 as [| x l Hsorted IH Hhd]; [reflexivity |].
  cbn [array_sort fold_right]. fold (array_sort comparefn l). rewrite IH.
  destruct Hhd as [| y l' Hxy]; [reflexivity |].
  cbn [insert_sorted].
  destruct (Z.leb_spec (sort_compare comparefn x y) 0); [reflexivity | lia].
Qed.
End ArraySortFacts.

Lemma sort_compare_numeric (a b : ScoredArticle) (x y : Z) :
  timestamp a = Num x -> timestamp b = Num y ->
  sort_compare by_timestamp_desc a b = y - x.
Proof.
  intros Ha Hb. unfold sort_compare, by_timestamp_desc. now rewrite Ha, Hb.
Qed.

Lemma sort_compare_NaN (a b : ScoredArticle) :
  timestamp a = NaN \/ timestamp b = NaN ->
  sort_compare by_timestamp_desc a b = 0.
Proof.
  unfold sort_compare, by_timestamp_desc.
  intros [H | H]; rewrite H; [destruct (timestamp b) | destruct (timestamp a)]; reflexivity.
Qed.

Lemma newer_or_equal_trans (a b c : ScoredArticle) :
  newer_or_equal a b -> newer_or_equal b c -> newer_or_equal a c.
Proof.
  unfold newer_or_equal, js_ge.
  destruct (timestamp a), (timestamp b), (timestamp c); try discriminate.
  rewrite !Z.leb_le. lia.
Qed.

Lemma insert_sorted_desc (x : ScoredArticle) (l : list ScoredArticle) :
  numeric x -> Forall numeric l ->
  StronglySorted newer_or_equal l ->
  StronglySorted newer_or_equal (insert_sorted by_timestamp_desc x l).
Proof.
  intros [tx Hx] Hnum Hsorted.
  induction Hsorted as [| y l Hsorted IH Hall]; cbn [insert_sorted].
  - repeat constructor.
  - inversion Hnum as [| ? ? [ty Hy] Hnum']; subst.
    rewrite (sort_compare_numeric x y tx ty Hx Hy).
    destruct (Z.leb_spec (ty - tx) 0) as [Hle | Hgt].
    + assert (Hxy : newer_or_equal x y).
      { unfold newer_or_equal. rewrite Hx, Hy. cbn. apply Z.leb_le. lia. }
      constructor; [now constructor |].
      constructor; [exact Hxy |].
      eapply List.Forall_impl; [| exact Hall].
      intros c Hyc. eapply newer_or_equal_trans; eassumption.
    + constructor; [now apply IH |].
      eapply Permutation_Forall; [symmetry; apply insert_sorted_perm |].
      constructor; [| exact Hall].
      unfold newer_or_equal. rewrite Hx, Hy. cbn. apply Z.leb_le. lia.
Qed.

Lemma array_sort_desc (l : list ScoredArticle) :
  Forall numeric l -> StronglySorted newer_or_equal (array_sort by_timestamp_desc l).
Proof.
  induction 1 as [| x l Hx Hl IH]; cbn [array_sort fold_right]; [constructor |].
  fold (array_sort by_timestamp_desc l).
  apply insert_sorted_desc; [exact Hx | | exact IH].
  eapply Permutation_Forall; [symmetry; apply array_sort_perm | exact Hl].
Qed.

(** Insertion never carries an article past one with the same timestamp. *)
Lemma insert_sorted_stable (t : Z) (x : ScoredArticle) (l : list ScoredArticle) :
  List.filter (timestamp_is t) (insert_sorted by_timestamp_desc x l)
  = List.filter (timestamp_is t) (x :: l).
Proof.
  induction l as [| y l IH]; cbn [insert_sorted]; [reflexivity |].
  destruct (Z.leb_spec (sort_compare by_timestamp_desc x y) 0) as [Hle | Hgt];
    [reflexivity |].
  cbn [List.filter] in *. rewrite IH.
  destruct (timestamp_is t x) eqn:Htx; [| reflexivity].
  destruct (timestamp_is t y) eqn:Hty; [| reflexivity].
  exfalso. unfold timestamp_is in Htx, Hty.
  unfold sort_compare, by_timestamp_desc in Hgt.
  destruct (timestamp x), (timestamp y); try discriminate.
  cbn in Hgt. apply Z.eqb_eq in Htx, Hty. lia.
Qed.

Lemma array_sort_stable (t : Z) (l : list ScoredArticle) :
  List.filter (timestamp_is t) (array_sort by_timestamp_desc l)
  = List.filter (timestamp_is t) l.
Proof.
  induction l as [| x l IH]; cbn [array_sort fold_right]; [reflexivity |].
  fold (array_sort by_timestamp_desc l).
  rewrite insert_sorted_stable. cbn [List.filter]. now rewrite IH.
Qed.

(** C5, as the code has it.  When the articles that pass the score filter
    all have a numeric timestamp, the items of the document are those
    articles, each with [score > minimumScore] (a score equal to
    [minimumScore] does not pass), in non-increasing order of timestamp,
    and articles with the same timestamp keep their input order. *)
Theorem writeArticlesFeed_filtered_sorted_stable
    (config : Config) (articles : list ScoredArticle) :
  Forall numeric (List.filter (meets_minimum config) articles) ->
  let emitted := filteredAndSorted config articles in
  writeArticlesFeed config articles
    = feed_header +:+ join NL (map generateRssItem emitted) +:+ feed_footer /\
  StronglySorted newer_or_equal emitted /\
  Forall (fun a => js_gt (score a) (Num (minimumScore config)) = true) emitted /\
  Permutation emitted (List.filter (meets_minimum config) articles) /\
  forall t, List.filter (timestamp_is t) emitted
            = List.filter (timestamp_is t) (List.filter (meets_minimum config) articles).
Proof.
  intros Hnum emitted. subst emitted. unfold filteredAndSorted.
  split; [reflexivity |].
  split; [now apply array_sort_desc |].
  split.
  - eapply Permutation_Forall; [symmetry; apply array_sort_perm |].
    apply List.Forall_forall. intros a Ha. apply filter_In in Ha. exact (proj2 Ha).
  - split; [apply array_sort_perm | intros t; apply array_sort_stable].
Qed.

(** C6, as the code has it.  The comparator is [NaN], which the sort reads
    as 0, as soon as one of the two timestamps is [NaN]: such an article
    compares equal to every other one, in both directions.  Between numeric
    timestamps the comparator is their difference.  So the sort does not
    move [NaN]-timestamp articles to the end: articles that already follow
    each other in an order the comparator accepts are emitted as they
    come. *)
Theorem by_timestamp_desc_NaN_compares_equal
    (config : Config) (articles : list ScoredArticle) :
  Sorted in_order (List.filter (meets_minimum config) articles) ->
  filteredAndSorted config articles = List.filter (meets_minimum config) articles /\
  (forall a b : ScoredArticle,
     timestamp a = NaN \/ timestamp b = NaN ->
     sort_compare by_timestamp_desc a b = 0 /\ sort_compare by_timestamp_desc b a = 0) /\
  (forall (a b : ScoredArticle) (x y : Z),
     timestamp a = Num x -> timestamp b = Num y ->
     sort_compare by_timestamp_desc a b = y - x).
Proof.
  intros Hsorted. split; [| split].
  - unfold filteredAndSorted. now apply array_sort_in_order.
  - intros a b Hnan. split; apply sort_compare_NaN; tauto.
  - intros a b x y. apply sort_compare_numeric.
Qed.

Lemma writeArticlesFeed_filtered_sorted_stable_witness :
  filteredAndSorted CONFIG articles_numeric
    = [scored "c" (Num 2) (Num 11); scored "d" (Num 2) (Num 50); scored "a" (Num 1) (Num 20)] /\
  StronglySorted newer_or_equal (filteredAndSorted CONFIG articles_numeric) /\
  Forall (fun a => js_gt (score a) (Num (minimumScore CONFIG)) = true)
    (filteredAndSorted CONFIG articles_numeric).
Proof.
  split; [reflexivity |].
  assert (Hnum : Forall numeric (List.filter (meets_minimum CONFIG) articles_numeric)).
  { repeat constructor; eexists; reflexivity. }
  destruct (writeArticlesFeed_filtered_sorted_stable CONFIG articles_numeric Hnum)
    as (_ & Hsorted & Hscore & _).
  split; [exact Hsorted | exact Hscore].
Defined.

(** C5, as stated, fails on a list with a [NaN] timestamp: the three
    articles are emitted in their input order, the one with timestamp 1
    before the one with timestamp 2. *)
Lemma NaN_timestamp_breaks_descending_order :
  filteredAndSorted CONFIG articles_with_NaN_inside = articles_with_NaN_inside /\
  js_ge (Num 1) (Num 2) = false /\
  ~ StronglySorted newer_or_equal (filteredAndSorted CONFIG articles_with_NaN_inside).
Proof.
  split; [reflexivity | split; [reflexivity |]].
  intros Hsorted. inversion Hsorted as [| a l _ Hall]; subst.
  inversion Hall as [| b l' Hab _]; subst.
  discriminate Hab.
Qed.

Lemma by_timestamp_desc_NaN_compares_equal_witness :
  filteredAndSorted CONFIG articles_with_NaN_then_desc = articles_with_NaN_then_desc.
Proof.
  apply (by_timestamp_desc_NaN_compares_equal CONFIG articles_with_NaN_then_desc).
  repeat constructor; unfold in_order; vm_compute; discriminate.
Defined.

(** C6, as stated, fails: an article with a [NaN] timestamp in front of an
    article with a numeric one is emitted first, not last; the comparator
    finds the two equal. *)
Lemma NaN_timestamp_not_placed_last :
  filteredAndSorted CONFIG articles_with_NaN_first
    = [scored "b" NaN (Num 20); scored "a" (Num 1) (Num 20)] /\
  sort_compare by_timestamp_desc (scored "b" NaN (Num 20)) (scored "a" (Num 1) (Num 20)) = 0.
Proof. split; reflexivity. Qed.

(** ** Escaping *)

Lemma escapeXml_cons (c : ascii) (t : string) :
  escapeXml (String c t) = escape_char c +:+ escapeXml t.
Proof.
  unfold escapeXml.
  destruct c as [[] [] [] [] [] [] [] []]; reflexivity.
Qed.

Lemma escapeXml_escape_each (str : string) : escapeXml str = escape_each str.
Proof.
  induction str as [| c t IH]; [reflexivity |].
  rewrite escapeXml_cons. cbn [escape_each]. now rewrite IH.
Qed.

Lemma count_chars_app (p : ascii -> bool) (s1 s2 : string) :
  count_chars p (s1 +:+ s2) = (count_chars p s1 + count_chars p s2)%nat.
Proof.
  induction s1 as [| c t IH]; [reflexivity |].
  change (count_chars p (String c t +:+ s2))
    with ((if p c then 1 else 0) + count_chars p (t +:+ s2))%nat.
  rewrite IH. cbn [count_chars]. lia.
Qed.

Lemma escape_char_ampersands (c : ascii) :
  count_chars (Ascii.eqb "&") (escape_char c) = if is_reserved c then 1%nat else 0%nat.
Proof. destruct c as [[] [] [] [] [] [] [] []]; reflexivity. Qed.

Lemma escape_char_no_raw (c : ascii) :
  count_chars (fun x => is_reserved x && negb (Ascii.eqb x "&")) (escape_char c) = 0%nat.
Proof. destruct c as [[] [] [] [] [] [] [] []]; reflexivity. Qed.

(** C7. [escapeXml] replaces every reserved character by its entity and
    keeps every other character, once: the output has one [&] per reserved
    character of the input ([&] never becomes [&amp;amp;]) and no other
    reserved character.  An item carries the escaped [title], [author],
    [link], [comments] and [guid], and [published] as it is. *)
Theorem generateRssItem_escapes_fields (a : ScoredArticle) :
  (forall str : string,
     escapeXml str = escape_each str /\
     count_chars (Ascii.eqb "&") (escapeXml str) = count_chars is_reserved str /\
     count_chars (fun x => is_reserved x && negb (Ascii.eqb x "&")) (escapeXml str) = 0%nat) /\
  generateRssItem a
    = item_template (escape_each (title a)) (escape_each (author a))
        (escape_each (link a)) (escape_each (comments a)) (escape_each (guid a))
        (published a).
Proof.
  split.
  - intros str. split; [apply escapeXml_escape_each |].
    rewrite escapeXml_escape_each.
    induction str as [| c t [IH1 IH2]]; [split; reflexivity |].
    cbn [escape_each count_chars]. rewrite !count_chars_app, IH1, IH2.
    rewrite escape_char_ampersands, escape_char_no_raw. split; reflexivity.
  - unfold generateRssItem, item_template. now rewrite !escapeXml_escape_each.
Qed.

(** ** The regular expressions *)

Lemma strip_prefix_ci_length (p s rest : string) :
  strip_prefix_ci p s = Some rest ->
  String.length s = (String.length p + String.length rest)%nat.
Proof.
  revert s. induction p as [| a p IH]; intros s H; cbn in H.
  - injection H as ->. reflexivity.
  - destruct s as [| b s]; [discriminate |].
    destruct (Ascii.eqb (lower a) (lower b)); [| discriminate].
    cbn [String.length]. rewrite (IH s H). reflexivity.
Qed.

Lemma after_gt_length (s rest : string) :
  after_gt s = Some rest -> (String.length rest < String.length s)%nat.
Proof.
  induction s as [| c t IH]; cbn; [discriminate |].
  destruct (Ascii.eqb c ">"); intros H.
  - injection H as ->. lia.
  - specialize (IH H). lia.
Qed.

Lemma until_close_length (close s inner rest : string) :
  until_close close s = Some (inner, rest) ->
  (String.length rest <= String.length s)%nat.
Proof.
  revert inner. induction s as [| c t IH]; intros inner; cbn [until_close].
  - destruct (strip_prefix_ci close EmptyString) as [r |] eqn:Hp; [| discriminate].
    intros H. injection H as _ <-.
    apply strip_prefix_ci_length in Hp. lia.
  - destruct (strip_prefix_ci close (String c t)) as [r |] eqn:Hp.
    + intros H. injection H as _ <-.
      apply strip_prefix_ci_length in Hp. lia.
    + destruct (until_close close t) as [[i r] |]; [| discriminate].
      intros H. injection H as _ <-.
      specialize (IH i eq_refl). cbn [String.length]. lia.
Qed.

(** A match is never empty: what follows it is shorter than the text. *)
Lemma match_here_rest (tag s whole inner rest : string) :
  match_here tag s = Some (whole, inner, rest) ->
  (String.length rest < String.length s)%nat.
Proof.
  unfold match_here.
  destruct (strip_prefix_ci ("<" +:+ tag) s) as [s1 |] eqn:H1; [| discriminate].
  destruct (after_gt s1) as [s2 |] eqn:H2; [| discriminate].
  destruct (until_close ("</" +:+ tag +:+ ">") s2) as [[i r] |] eqn:H3; [| discriminate].
  intros H. injection H as _ _ <-.
  apply strip_prefix_ci_length in H1. apply after_gt_length in H2.
  apply until_close_length in H3. lia.
Qed.

Lemma find_match_rest (tag s whole inner rest : string) :
  find_match tag s = Some (whole, inner, rest) ->
  (String.length rest < String.length s)%nat.
Proof.
  induction s as [| c t IH]; cbn [find_match].
  - destruct (match_here tag EmptyString) as [[[w0 i0] r0] |] eqn:Hm; [| discriminate].
    intros H. injection H as _ _ <-. exact (match_here_rest _ _ _ _ _ Hm).
  - destruct (match_here tag (String c t)) as [[[w0 i0] r0] |] eqn:Hm.
    + intros H. injection H as _ _ <-. exact (match_here_rest _ _ _ _ _ Hm).
    + intros H. specialize (IH H). cbn [String.length]. lia.
Qed.

(** The length of the text is enough fuel for the global match: more fuel
    finds the same matches. *)
Lemma match_all_fuel_enough (tag : string) (fuel1 : nat) :
  forall (fuel2 : nat) (s : string),
    (String.length s <= fuel1)%nat -> (String.length s <= fuel2)%nat ->
    match_all_fuel fuel1 tag s = match_all_fuel fuel2 tag s.
Proof.
  induction fuel1 as [| fuel1 IH]; intros fuel2 s H1 H2.
  - destruct s as [| c t]; [| cbn in H1; lia].
    destruct fuel2; reflexivity.
  - destruct fuel2 as [| fuel2].
    + destruct s as [| c t]; [reflexivity | cbn in H2; lia].
    + cbn [match_all_fuel].
      destruct (find_match tag s) as [[[whole inner] rest] |] eqn:Hfind; [| reflexivity].
      apply find_match_rest in Hfind. f_equal. apply IH; lia.
Qed.

(** ** The pipeline *)

Section PipelineFacts.
Variable JSON_parse : string -> parsed.
Variable Date_getTime : string -> jsnum.
Variable net : nat -> string -> response.
Variable config : Config.

(** The score fetcher leaves the store alone. *)
Lemma fetchArticleScore_fuel_store (url : string) (fuel : nat) :
  forall (rc : Z) (w : World) (s : jsnum) (w' : World),
    fetchArticleScore_fuel JSON_parse net config fuel url rc w = Some (s, w') ->
    store_events w' = store_events w /\ kv w' = kv w.
Proof.
  induction fuel as [| fuel IH]; intros rc w s w' Hrun; [discriminate |].
  rewrite fetchArticleScore_fuel_step in Hrun.
  destruct (attempt JSON_parse config rc (net (fetch_count w) (url +:+ ".json")))
    as [s0 | delay].
  - injection Hrun as <- <-. split; reflexivity.
  - apply IH in Hrun. exact Hrun.
Qed.

Lemma fetchArticleScore_store (url : string) (rc : Z) (w : World) :
  store_events (snd (fetchArticleScore JSON_parse net config url rc w)) = store_events w /\
  kv (snd (fetchArticleScore JSON_parse net config url rc w)) = kv w.
Proof.
  destruct (fetchArticleScore_run JSON_parse net config url rc w)
    as (n & s & w' & Hrun & Hfuel & _).
  rewrite Hrun. cbn [snd]. exact (fetchArticleScore_fuel_store _ _ _ _ _ _ Hfuel).
Qed.

Lemma score_articles_store (parsedArticles : list Article) :
  forall w : World,
    store_events (snd (score_articles JSON_parse Date_getTime net config parsedArticles w))
      = store_events w /\
    kv (snd (score_articles JSON_parse Date_getTime net config parsedArticles w)) = kv w.
Proof.
  induction parsedArticles as [| a rest IH]; intros w; [split; reflexivity |].
  cbn [score_articles].
  pose proof (fetchArticleScore_store (comments a) 0 w) as [Hev Hkv].
  destruct (fetchArticleScore JSON_parse net config (comments a) 0 w) as [s w1].
  cbn [snd] in Hev, Hkv.
  set (w2 := match rest with [] => w1 | _ :: _ => sleep (rateLimitDelay config) w1 end).
  assert (Hw2 : store_events w2 = store_events w /\ kv w2 = kv w).
  { subst w2. destruct rest; split; assumption. }
  specialize (IH w2).
  destruct (score_articles JSON_parse Date_getTime net config rest w2) as [others w3].
  cbn [snd] in *. destruct IH as [IHev IHkv], Hw2 as [Hev2 Hkv2].
  split; congruence.
Qed.

(** The whole pipeline leaves the store alone. *)
Lemma fetchAllArticles_store (url : string) (w : World) :
  store_events (snd (fetchAllArticles JSON_parse Date_getTime net config url w))
    = store_events w /\
  kv (snd (fetchAllArticles JSON_parse Date_getTime net config url w)) = kv w.
Proof.
  unfold fetchAllArticles, fetch.
  destruct (net (fetch_count w) url) as [message | xmlText]; [split; reflexivity |].
  apply (score_articles_store _ (record (EvFetch url) w)).
Qed.

Lemma match_items_none (xmlText : string) :
  find_match "item" xmlText = None -> match_items xmlText = None.
Proof.
  intros Hnone. unfold match_items.
  destruct (String.length xmlText) as [| n]; [reflexivity |].
  cbn [match_all_fuel]. now rewrite Hnone.
Qed.

(** C8. When the GET of the feed (or the read of its body) throws,
    [fetchAllArticles] returns the empty list, and so it does when no
    fragment of the body matches the item expression; neither raises, and
    nothing but the one request has happened. *)
Theorem fetchAllArticles_degrades_to_empty (url : string) (w : World) :
  (exists message, net (fetch_count w) url = Failure message) \/
  (exists xmlText, net (fetch_count w) url = Body xmlText /\
                   find_match "item" xmlText = None) ->
  fetchAllArticles JSON_parse Date_getTime net config url w
  = ([], record (EvFetch url) w).
Proof.
  unfold fetchAllArticles, fetch.
  intros [[message Hnet] | (xmlText & Hnet & Hnone)]; rewrite Hnet; [reflexivity |].
  now rewrite (match_items_none _ Hnone).
Qed.

End PipelineFacts.

Lemma fetchAllArticles_degrades_to_empty_witness :
  fetchAllArticles sample_JSON_parse sample_Date_getTime failing_net CONFIG
    (feedUrl CONFIG) empty_world
  = ([], record (EvFetch (feedUrl CONFIG)) empty_world) /\
  fetchAllArticles sample_JSON_parse sample_Date_getTime empty_feed_net CONFIG
    (feedUrl CONFIG) empty_world
  = ([], record (EvFetch (feedUrl CONFIG)) empty_world).
Proof.
  split.
  - apply (fetchAllArticles_degrades_to_empty sample_JSON_parse sample_Date_getTime
             failing_net CONFIG (feedUrl CONFIG) empty_world).
    left. exists "fetch failed". reflexivity.
  - apply (fetchAllArticles_degrades_to_empty sample_JSON_parse sample_Date_getTime
             empty_feed_net CONFIG (feedUrl CONFIG) empty_world).
    right. exists "<rss><channel><title>Lobsters</title></channel></rss>".
    split; reflexivity.
Defined.

(** ** The cache policy *)

Section WorkerFacts.
Variable JSON_parse : string -> parsed.
Variable Date_getTime : string -> jsnum.
Variable net : nat -> string -> response.
Variable kv_fault : nat -> option string.

Local Abbreviation handler := (worker_fetch JSON_parse Date_getTime net kv_fault).
Local Abbreviation pipeline :=
  (fetchAllArticles JSON_parse Date_getTime net CONFIG (feedUrl CONFIG)).

(** Running the pipeline and storing its document, when the store accepts
    the put. *)
Lemma generate_fresh_stores (w : World) :
  kv_fault (store_count w) = None ->
  generate_fresh JSON_parse Date_getTime net kv_fault w
  = (feed_response (writeArticlesFeed CONFIG (fst (pipeline w))) "MISS",
     stored (cacheKey CONFIG) (writeArticlesFeed CONFIG (fst (pipeline w)))
       (cacheMaxAge CONFIG) (snd (pipeline w))).
Proof.
  intros Hfault. unfold generate_fresh.
  pose proof (fetchAllArticles_store JSON_parse Date_getTime net CONFIG (feedUrl CONFIG) w)
    as [Hev _].
  destruct (pipeline w) as [articles w1]. cbn [fst snd] in *.
  unfold kv_put.
  assert (Hcount : store_count w1 = store_count w).
  { unfold store_count. fold (store_events w1). fold (store_events w). now rewrite Hev. }
  now rewrite Hcount, Hfault.
Qed.

(** C9. For a request to [/]:
    - with [force_refresh] or [clear_cache] in the query the store is not
      read: the pipeline runs, its document is put under the cache key with
      the configured TTL, and the response has status 200, that document as
      its body and the headers of a feed with [X-Cache: MISS]; the put is
      the only store operation;
    - otherwise the store is read, and a document found there is the body
      of the response, which has status 200 and the headers of a feed with
      [X-Cache: HIT]; nothing else happens;
    - otherwise, when the read finds nothing, the pipeline runs after the
      read, its document is put with the configured TTL and is the body of
      the response, with status 200 and [X-Cache: MISS].
    The store operations involved are taken not to fail. *)
Theorem worker_fetch_cache_policy (request : Request) (w : World) :
  pathname request = "/" ->
  let bypass :=
    searchParams_has "force_refresh" request || searchParams_has "clear_cache" request in
  let key := cacheKey CONFIG in
  let ttl := cacheMaxAge CONFIG in
  (bypass = true -> kv_fault (store_count w) = None ->
   let rssFeed := writeArticlesFeed CONFIG (fst (pipeline w)) in
   let w' := stored key rssFeed ttl (snd (pipeline w)) in
   handler request w
   = (Ok {| status := 200;
            headers := [("Content-Type", "application/rss+xml; charset=utf-8");
                        ("Cache-Control", "public, max-age=1800");
                        ("X-Cache", "MISS")];
            body := rssFeed |}, w') /\
   kv w' !! key = Some (rssFeed, ttl) /\
   store_events w' = EvPut key rssFeed ttl :: store_events w) /\
  (bypass = false -> kv_fault (store_count w) = None ->
   forall (document : string) (t : Z),
     kv w !! key = Some (document, t) -> document <> EmptyString ->
     handler request w
     = (Ok {| status := 200;
              headers := [("Content-Type", "application/rss+xml; charset=utf-8");
                          ("Cache-Control", "public, max-age=1800");
                          ("X-Cache", "HIT")];
              body := document |}, record (EvGet key) w)) /\
  (bypass = false -> kv_fault (store_count w) = None ->
   kv_fault (S (store_count w)) = None ->
   truthy (fst <$> kv w !! key) = false ->
   let w0 := record (EvGet key) w in
   let rssFeed := writeArticlesFeed CONFIG (fst (pipeline w0)) in
   let w' := stored key rssFeed ttl (snd (pipeline w0)) in
   handler request w
   = (Ok {| status := 200;
            headers := [("Content-Type", "application/rss+xml; charset=utf-8");
                        ("Cache-Control", "public, max-age=1800");
                        ("X-Cache", "MISS")];
            body := rssFeed |}, w') /\
   kv w' !! key = Some (rssFeed, ttl) /\
   store_events w' = EvPut key rssFeed ttl :: EvGet key :: store_events w).
Proof.
  intros Hpath bypass key ttl.
  assert (Hroute : forall w0,
             handler request w0 =
             if negb bypass then
               let '(r, w1) := kv_get kv_fault key w0 in
               match r with
               | Throw _ => (Ok error_response, w1)
               | Ok cachedFeed =>
                   if truthy cachedFeed
                   then (Ok (feed_response (default EmptyString cachedFeed) "HIT"), w1)
                   else let '(resp, w2) :=
                          generate_fresh JSON_parse Date_getTime net kv_fault w1 in
                        (Ok resp, w2)
               end
             else let '(resp, w1) :=
                    generate_fresh JSON_parse Date_getTime net kv_fault w0 in
                  (Ok resp, w1)).
  { intros w0. unfold worker_fetch. rewrite Hpath. reflexivity. }
  split; [| split].
  - intros Hbypass Hfault rssFeed w'.
    rewrite Hroute, Hbypass. cbn [negb].
    rewrite (generate_fresh_stores w Hfault). fold rssFeed. fold w'.
    split; [reflexivity |].
    split; [apply lookup_insert_eq |].
    unfold w', stored, store_events. cbn [trace List.filter is_store_op].
    f_equal.
    exact (proj1 (fetchAllArticles_store JSON_parse Date_getTime net CONFIG
                    (feedUrl CONFIG) w)).
  - intros Hbypass Hfault document t Hlookup Hnonempty.
    rewrite Hroute, Hbypass. cbn [negb]. unfold kv_get.
    rewrite Hfault, Hlookup. cbn [fmap option_fmap option_map fst truthy].
    destruct (String.eqb_spec document EmptyString) as [Heq | _]; [contradiction |].
    reflexivity.
  - intros Hbypass Hfault Hfault' Hmiss w0 rssFeed w'.
    rewrite Hroute, Hbypass. cbn [negb]. unfold kv_get.
    rewrite Hfault, Hmiss.
    rewrite (generate_fresh_stores (record (EvGet key) w)).
    + fold w0. fold rssFeed. fold w'.
      split; [reflexivity |].
      split; [apply lookup_insert_eq |].
      unfold w', stored, store_events. cbn [trace List.filter is_store_op].
      f_equal.
      exact (proj1 (fetchAllArticles_store JSON_parse Date_getTime net CONFIG
                      (feedUrl CONFIG) w0)).
    + exact Hfault'.
Qed.

End WorkerFacts.

Lemma worker_fetch_cache_policy_witness :
  (exists rssFeed w',
     worker_fetch sample_JSON_parse sample_Date_getTime sample_net reliable_store
       root_request empty_world
     = (Ok {| status := 200;
              headers := [("Content-Type", "application/rss+xml; charset=utf-8");
                          ("Cache-Control", "public, max-age=1800");
                          ("X-Cache", "MISS")];
              body := rssFeed |}, w') /\
     kv w' !! cacheKey CONFIG = Some (rssFeed, cacheMaxAge CONFIG)) /\
  worker_fetch sample_JSON_parse sample_Date_getTime sample_net reliable_store
    root_request warm_world
  = (Ok {| status := 200;
           headers := [("Content-Type", "application/rss+xml; charset=utf-8");
                       ("Cache-Control", "public, max-age=1800");
                       ("X-Cache", "HIT")];
           body := "<rss>cached</rss>" |},
     record (EvGet (cacheKey CONFIG)) warm_world) /\
  (exists rssFeed w',
     worker_fetch sample_JSON_parse sample_Date_getTime sample_net reliable_store
       refresh_request warm_world
     = (Ok {| status := 200;
              headers := [("Content-Type", "application/rss+xml; charset=utf-8");
                          ("Cache-Control", "public, max-age=1800");
                          ("X-Cache", "MISS")];
              body := rssFeed |}, w') /\
     store_events w' = [EvPut (cacheKey CONFIG) rssFeed (cacheMaxAge CONFIG)]).
Proof.
  destruct (worker_fetch_cache_policy sample_JSON_parse sample_Date_getTime sample_net
              reliable_store root_request empty_world eq_refl) as (_ & _ & Hmiss).
  destruct (worker_fetch_cache_policy sample_JSON_parse sample_Date_getTime sample_net
              reliable_store root_request warm_world eq_refl) as (_ & Hhit & _).
  destruct (worker_fetch_cache_policy sample_JSON_parse sample_Date_getTime sample_net
              reliable_store refresh_request warm_world eq_refl) as (Hbypass & _ & _).
  split; [| split].
  - destruct Hmiss as (Hserved & Hstored & _); [reflexivity .. |].
    eexists. eexists. split; [exact Hserved | exact Hstored].
  - apply (Hhit eq_refl eq_refl "<rss>cached</rss>" (cacheMaxAge CONFIG)).
    + reflexivity.
    + discriminate.
  - destruct Hbypass as (Hserved & _ & Hevents); [reflexivity .. |].
    eexists. eexists. split; [exact Hserved | exact Hevents].
Defined.

(** ** The scenarios of the repository's tests *)

Example test_responds_with_feed :
  let r := worker_fetch sample_JSON_parse sample_Date_getTime sample_net reliable_store
             root_request empty_world in
  (status <$> served r) = Some 200 /\
  (headers <$> served r)
    = Some [("Content-Type", "application/rss+xml; charset=utf-8");
            ("Cache-Control", "public, max-age=1800"); ("X-Cache", "MISS")] /\
  body_contains "<title>Lobsters</title>" r = true /\
  body_contains "<item>" r = true /\
  body_contains "Test Article" r = true /\
  body_contains "<comments>https://lobste.rs/s/test/test-article</comments>" r = true /\
  body_contains "<wfw:commentRss>https://lobste.rs/s/test/test-article</wfw:commentRss>" r
    = true.
Proof. vm_compute. repeat split. Qed.

Example test_redirects_index_xml :
  served (worker_fetch sample_JSON_parse sample_Date_getTime sample_net reliable_store
            index_request empty_world)
  = Some {| status := 302; headers := [("Location", "http://example.com/")];
            body := EmptyString |}.
Proof. reflexivity. Qed.

(** An item without [comments] is dropped before scoring: the document has
    no item and no score was requested. *)
Example scenario_item_without_comments :
  let r := worker_fetch sample_JSON_parse sample_Date_getTime net_without_comments
             reliable_store root_request empty_world in
  body_contains "<item>" r = false /\
  fetch_count (snd r) = 1%nat.
Proof. vm_compute. split; reflexivity. Qed.

(** A second request finds the document of the first one. *)
Example scenario_miss_then_hit :
  let first := worker_fetch sample_JSON_parse sample_Date_getTime sample_net reliable_store
                 root_request empty_world in
  let second := worker_fetch sample_JSON_parse sample_Date_getTime sample_net reliable_store
                  root_request (snd first) in
  (body <$> served second) = (body <$> served first) /\
  (headers <$> served second)
    = Some [("Content-Type", "application/rss+xml; charset=utf-8");
            ("Cache-Control", "public, max-age=1800"); ("X-Cache", "HIT")].
Proof. vm_compute. split; reflexivity. Qed.

(** * Further properties of the code *)

(** ** Strings *)

Lemma append_nil_r (s : string) : s +:+ EmptyString = s.
Proof. induction s as [| c t IH]; [reflexivity |]. change (String c (t +:+ "") = String c t). now rewrite IH. Qed.

Lemma append_assoc (a b c : string) : (a +:+ b) +:+ c = a +:+ b +:+ c.
Proof.
  induction a as [| x a IH]; [reflexivity |].
  change (String x ((a +:+ b) +:+ c) = String x (a +:+ b +:+ c)). now rewrite IH.
Qed.

Lemma length_append (a b : string) :
  String.length (a +:+ b) = (String.length a + String.length b)%nat.
Proof.
  induction a as [| x a IH]; [reflexivity |].
  change (S (String.length (a +:+ b)) = S (String.length a + String.length b)).
  now rewrite IH.
Qed.

Lemma substring_append (a b : string) :
  substring 0 (String.length a) (a +:+ b) = a.
Proof.
  induction a as [| x a IH]; [destruct b; reflexivity |].
  change (String x (substring 0 (String.length a) (a +:+ b)) = String x a).
  now rewrite IH.
Qed.

Lemma count_chars_lacks_app (c : ascii) (a b : string) :
  lacks c (a +:+ b) <-> lacks c a /\ lacks c b.
Proof. unfold lacks. rewrite count_chars_app. lia. Qed.

Lemma lower_lt (x : ascii) : Ascii.eqb (lower "<") (lower x) = Ascii.eqb "<" x.
Proof. destruct x as [[] [] [] [] [] [] [] []]; reflexivity. Qed.

(** ** The regular expressions on well-formed text *)

Lemma strip_prefix_ci_append (p q r s : string) :
  strip_prefix_ci p q = Some r -> strip_prefix_ci p (q +:+ s) = Some (r +:+ s).
Proof.
  revert q. induction p as [| a p IH]; intros q H; cbn in H.
  - injection H as ->. reflexivity.
  - destruct q as [| b q]; [discriminate |].
    change (strip_prefix_ci (String a p) (String b (q +:+ s)) = Some (r +:+ s)).
    cbn [strip_prefix_ci].
    destruct (Ascii.eqb (lower a) (lower b)); [now apply IH | discriminate].
Qed.

Lemma after_gt_append (a r s : string) :
  after_gt a = Some r -> after_gt (a +:+ s) = Some (r +:+ s).
Proof.
  induction a as [| c a IH]; [discriminate |].
  change (after_gt (String c a) = Some r -> after_gt (String c (a +:+ s)) = Some (r +:+ s)).
  cbn [after_gt]. destruct (Ascii.eqb c ">"); intros H.
  - injection H as ->. reflexivity.
  - now apply IH.
Qed.

Lemma mismatch_within_fails (p lit s : string) :
  mismatch_within p lit = true -> strip_prefix_ci p (lit +:+ s) = None.
Proof.
  revert lit. induction p as [| a p IH]; intros lit H; [discriminate |].
  destruct lit as [| b lit]; [discriminate |].
  change (strip_prefix_ci (String a p) (String b (lit +:+ s)) = None).
  cbn [mismatch_within strip_prefix_ci] in *.
  destruct (Ascii.eqb (lower a) (lower b)); [now apply IH | reflexivity].
Qed.

Lemma skips_lacks_lt (tag e : string) : lacks "<" e -> skips ("<" +:+ tag) e = true.
Proof.
  unfold lacks. induction e as [| x e IH]; [reflexivity |].
  cbn [count_chars]. intros H.
  change (mismatch_within (String "<" tag) (String x e) && skips ("<" +:+ tag) e = true).
  cbn [mismatch_within]. rewrite lower_lt.
  destruct (Ascii.eqb "<" x); [discriminate |].
  cbn [andb]. apply IH. exact H.
Qed.

(** Text that cannot start an occurrence is passed over by the search. *)
Lemma find_match_skip (tag lit s : string) :
  skips ("<" +:+ tag) lit = true -> find_match tag (lit +:+ s) = find_match tag s.
Proof.
  induction lit as [| x lit IH]; [reflexivity |].
  cbn [skips]. intros H. apply andb_prop in H as [Hhere Hrest].
  change (find_match tag (String x (lit +:+ s)) = find_match tag s).
  cbn [find_match].
  assert (Hnone : match_here tag (String x (lit +:+ s)) = None).
  { unfold match_here.
    change (String x (lit +:+ s)) with (String x lit +:+ s).
    now rewrite (mismatch_within_fails _ _ s Hhere). }
  rewrite Hnone. now apply IH.
Qed.

Lemma until_close_head (close s rest : string) :
  strip_prefix_ci close s = Some rest -> until_close close s = Some (EmptyString, rest).
Proof. intros H. destruct s; cbn [until_close]; now rewrite H. Qed.

(** Text that cannot start the closing tag belongs to the group. *)
Lemma until_close_skip (close lit s : string) :
  skips close lit = true ->
  until_close close (lit +:+ s)
  = match until_close close s with
    | Some (inner, rest) => Some (lit +:+ inner, rest)
    | None => None
    end.
Proof.
  induction lit as [| x lit IH]; intros H.
  - change (EmptyString +:+ s) with s. destruct (until_close close s) as [[i r] |]; reflexivity.
  - cbn [skips] in H. apply andb_prop in H as [Hhere Hrest].
    change (String x lit +:+ s) with (String x (lit +:+ s)).
    cbn [until_close].
    change (String x (lit +:+ s)) with (String x lit +:+ s).
    rewrite (mismatch_within_fails close (String x lit) s Hhere), (IH Hrest).
    destruct (until_close close s) as [[i r] |]; reflexivity.
Qed.

Lemma until_close_first (tag e closing rest : string) :
  lacks "<" e -> ci_eqb ("</" +:+ tag +:+ ">") closing = true ->
  until_close ("</" +:+ tag +:+ ">") (e +:+ closing +:+ rest) = Some (e, rest).
Proof.
  intros He Hclose. unfold ci_eqb in Hclose.
  destruct (strip_prefix_ci ("</" +:+ tag +:+ ">") closing) as [[| ? ?] |] eqn:Hp;
    try discriminate.
  induction e as [| x e IH].
  - change (until_close ("</" +:+ tag +:+ ">") (closing +:+ rest) = Some (EmptyString, rest)).
    apply until_close_head. exact (strip_prefix_ci_append _ _ _ rest Hp).
  - unfold lacks in He. cbn [count_chars] in He.
    change (until_close ("</" +:+ tag +:+ ">") (String x (e +:+ closing +:+ rest))
            = Some (String x e, rest)).
    cbn [until_close].
    change ("</" +:+ tag +:+ ">") with (String "<" ("/" +:+ tag +:+ ">")) at 1.
    cbn [strip_prefix_ci]. rewrite lower_lt.
    destruct (Ascii.eqb "<" x); [discriminate |].
    rewrite IH by exact He. reflexivity.
Qed.

(** An element at the head of the text is the match, whatever follows. *)
Lemma match_here_element (tag opening e closing rest : string) :
  opens tag opening = true -> lacks "<" e ->
  ci_eqb ("</" +:+ tag +:+ ">") closing = true ->
  match_here tag (opening +:+ e +:+ closing +:+ rest)
  = Some (opening +:+ e +:+ closing, e, rest).
Proof.
  intros Hopen He Hclose. unfold opens in Hopen. unfold match_here.
  destruct (strip_prefix_ci ("<" +:+ tag) opening) as [attrs |] eqn:Hp; [| discriminate].
  destruct (after_gt attrs) as [[| ? ?] |] eqn:Hgt; try discriminate.
  rewrite (strip_prefix_ci_append _ _ _ _ Hp), (after_gt_append _ _ _ Hgt).
  change (EmptyString +:+ e +:+ closing +:+ rest) with (e +:+ closing +:+ rest).
  rewrite (until_close_first tag e closing rest He Hclose).
  do 2 f_equal. f_equal.
  rewrite <- !append_assoc. rewrite length_append.
  replace (String.length ((opening +:+ e) +:+ closing) + String.length rest
           - String.length rest)%nat
    with (String.length ((opening +:+ e) +:+ closing)) by lia.
  apply substring_append.
Qed.

Lemma find_match_element (tag opening e closing rest : string) :
  opens tag opening = true -> lacks "<" e ->
  ci_eqb ("</" +:+ tag +:+ ">") closing = true ->
  find_match tag (opening +:+ e +:+ closing +:+ rest)
  = Some (opening +:+ e +:+ closing, e, rest).
Proof.
  intros Hopen He Hclose.
  pose proof (match_here_element tag opening e closing rest Hopen He Hclose) as Hm.
  destruct (opening +:+ e +:+ closing +:+ rest); cbn [find_match]; now rewrite Hm.
Qed.

(** The same for a content that may hold [<], as long as none of its
    positions can start the closing tag. *)
Lemma find_match_enclosed (tag opening e closing rest : string) :
  opens tag opening = true ->
  skips ("</" +:+ tag +:+ ">") e = true ->
  ci_eqb ("</" +:+ tag +:+ ">") closing = true ->
  find_match tag (opening +:+ e +:+ closing +:+ rest)
  = Some (opening +:+ e +:+ closing, e, rest).
Proof.
  intros Hopen He Hclose.
  assert (Hm : match_here tag (opening +:+ e +:+ closing +:+ rest)
               = Some (opening +:+ e +:+ closing, e, rest)).
  { unfold opens in Hopen. unfold ci_eqb in Hclose. unfold match_here.
    destruct (strip_prefix_ci ("<" +:+ tag) opening) as [attrs |] eqn:Hp; [| discriminate].
    destruct (after_gt attrs) as [[| ? ?] |] eqn:Hgt; try discriminate.
    destruct (strip_prefix_ci ("</" +:+ tag +:+ ">") closing) as [[| ? ?] |] eqn:Hc;
      try discriminate.
    rewrite (strip_prefix_ci_append _ _ _ _ Hp), (after_gt_append _ _ _ Hgt).
    change (EmptyString +:+ e +:+ closing +:+ rest) with (e +:+ closing +:+ rest).
    rewrite (until_close_skip _ e _ He).
    rewrite (until_close_head _ _ _ (strip_prefix_ci_append _ _ _ rest Hc)).
    change (EmptyString +:+ rest) with rest.
    rewrite append_nil_r.
    do 2 f_equal. f_equal.
    rewrite <- !append_assoc. rewrite length_append.
    replace (String.length ((opening +:+ e) +:+ closing) + String.length rest
             - String.length rest)%nat
      with (String.length ((opening +:+ e) +:+ closing)) by lia.
    apply substring_append. }
  destruct (opening +:+ e +:+ closing +:+ rest); cbn [find_match]; now rewrite Hm.
Qed.

Lemma strip_prefix_ci_lacks (c : ascii) (p s r : string) :
  strip_prefix_ci p s = Some r -> lacks c s -> lacks c r.
Proof.
  unfold lacks. revert s. induction p as [| a p IH]; intros s H Hs; cbn in H.
  - now injection H as <-.
  - destruct s as [| b s]; [discriminate |].
    destruct (Ascii.eqb (lower a) (lower b)); [| discriminate].
    cbn [count_chars] in Hs. apply (IH s H). lia.
Qed.

Lemma after_gt_none (s : string) : lacks ">" s -> after_gt s = None.
Proof.
  unfold lacks. induction s as [| c t IH]; [reflexivity |].
  cbn [count_chars after_gt]. rewrite (Ascii.eqb_sym c ">").
  destruct (Ascii.eqb ">" c); [discriminate |]. intros H. now apply IH.
Qed.

Lemma lower_slash (x : ascii) : Ascii.eqb (lower "/") (lower x) = Ascii.eqb "/" x.
Proof. destruct x as [[] [] [] [] [] [] [] []]; reflexivity. Qed.

Lemma until_close_none (tag s : string) :
  lacks "/" s -> until_close ("</" +:+ tag +:+ ">") s = None.
Proof.
  unfold lacks. induction s as [| x s IH]; [reflexivity |].
  cbn [count_chars]. intros H.
  cbn [until_close].
  change ("</" +:+ tag +:+ ">") with (String "<" (String "/" (tag +:+ ">"))) at 1.
  assert (Hp : strip_prefix_ci (String "<" (String "/" (tag +:+ ">"))) (String x s) = None).
  { cbn [strip_prefix_ci].
    destruct (Ascii.eqb (lower "<") (lower x)); [| reflexivity].
    destruct s as [| y s]; [reflexivity |].
    rewrite lower_slash. cbn [count_chars] in H.
    destruct (Ascii.eqb "/" x), (Ascii.eqb "/" y); try discriminate; reflexivity. }
  rewrite Hp, IH; [reflexivity |].
  destruct (Ascii.eqb "/" x); [discriminate | exact H].
Qed.

Lemma match_here_none (tag s : string) :
  lacks "<" s \/ lacks "/" s \/ lacks ">" s -> match_here tag s = None.
Proof.
  intros H. unfold match_here.
  destruct (strip_prefix_ci ("<" +:+ tag) s) as [s1 |] eqn:Hp; [| reflexivity].
  destruct H as [H | [H | H]].
  - exfalso. destruct s as [| x s]; [discriminate |].
    change ("<" +:+ tag) with (String "<" tag) in Hp. cbn [strip_prefix_ci] in Hp.
    rewrite lower_lt in Hp. unfold lacks in H. cbn [count_chars] in H.
    destruct (Ascii.eqb "<" x); discriminate.
  - destruct (after_gt s1) as [s2 |] eqn:Hgt; [| reflexivity].
    rewrite until_close_none; [reflexivity |].
    pose proof (strip_prefix_ci_lacks "/" _ _ _ Hp H) as H1.
    clear -Hgt H1. revert s2 Hgt. unfold lacks in *.
    induction s1 as [| c t IH]; intros s2 Hgt; [discriminate |].
    cbn [after_gt count_chars] in *.
    destruct (Ascii.eqb c ">").
    + injection Hgt as <-. lia.
    + apply IH; [lia | exact Hgt].
  - now rewrite (after_gt_none s1 (strip_prefix_ci_lacks ">" _ _ _ Hp H)).
Qed.

Lemma find_match_none (tag s : string) :
  lacks "<" s \/ lacks "/" s \/ lacks ">" s -> find_match tag s = None.
Proof.
  induction s as [| x s IH]; intros H; cbn [find_match].
  - now rewrite (match_here_none tag EmptyString H).
  - rewrite (match_here_none tag (String x s) H). apply IH.
    unfold lacks in *. cbn [count_chars] in H.
    destruct H as [H | [H | H]]; [left | right; left | right; right]; lia.
Qed.

(** X1. For a tag name made of ASCII letters and digits,
    [extractTextContent] returns the trimmed content of the first element
    of that name, provided no position of the content can start the
    closing tag (so the content is not cut short): what precedes the
    element cannot start an occurrence, the opening tag may carry
    attributes, the names are compared without case, and what follows the
    element is ignored. *)
Theorem extractTextContent_first_element
    (tag pre opening e closing rest : string) :
  plain_tag tag = true ->
  skips ("<" +:+ tag) pre = true ->
  opens tag opening = true ->
  skips ("</" +:+ tag +:+ ">") e = true ->
  ci_eqb ("</" +:+ tag +:+ ">") closing = true ->
  extractTextContent (pre +:+ opening +:+ e +:+ closing +:+ rest) tag = trim e.
Proof.
  intros _ Hpre Hopen He Hclose. unfold extractTextContent.
  rewrite (find_match_skip tag pre _ Hpre).
  now rewrite (find_match_enclosed tag opening e closing rest Hopen He Hclose).
Qed.

Lemma extractTextContent_first_element_witness :
  extractTextContent
    ("<item>" +:+ "<Title lang=en>" +:+ "  <![CDATA[Hello]]>  " +:+ "</TITLE>"
     +:+ "<title>Other</title>")
    "title"
  = "<![CDATA[Hello]]>".
Proof.
  apply (extractTextContent_first_element "title" "<item>" "<Title lang=en>"
           "  <![CDATA[Hello]]>  " "</TITLE>" "<title>Other</title>"); reflexivity.
Defined.

(** X2. For a tag name made of ASCII letters and digits,
    [extractTextContent] gives the empty string, and no error, on text
    that cannot hold an element: text without [<], without [/] (an element
    that is never closed) or without [>]. *)
Theorem extractTextContent_absent (xml tag : string) :
  plain_tag tag = true ->
  lacks "<" xml \/ lacks "/" xml \/ lacks ">" xml ->
  extractTextContent xml tag = EmptyString.
Proof.
  intros _ H. unfold extractTextContent. now rewrite (find_match_none tag xml H).
Qed.

Lemma extractTextContent_absent_witness :
  extractTextContent "<item><title>Never closed" "title" = EmptyString.
Proof.
  apply (extractTextContent_absent "<item><title>Never closed" "title").
  - reflexivity.
  - right. left. reflexivity.
Defined.

(** ** The item parser *)

Lemma before_at_lacks (s : string) : lacks "@" (before_at s).
Proof.
  unfold lacks. induction s as [| c t IH]; [reflexivity |].
  cbn [before_at]. rewrite (Ascii.eqb_sym c "@").
  destruct (Ascii.eqb "@" c) eqn:Hc; [reflexivity |].
  cbn [count_chars]. now rewrite Hc.
Qed.

Lemma before_at_prefix (s : string) :
  exists rest, s = before_at s +:+ rest /\
               (rest = EmptyString \/ exists tail, rest = String "@" tail).
Proof.
  induction s as [| c t (rest & Heq & Hrest)].
  - exists EmptyString. split; [reflexivity | now left].
  - cbn [before_at]. destruct (Ascii.eqb_spec c "@") as [-> | Hne].
    + exists (String "@" t). split; [reflexivity | right; now exists t].
    + exists rest. split; [| exact Hrest].
      change (String c t = String c (before_at t +:+ rest)). now rewrite <- Heq.
Qed.

(** X3. The [author] of a parsed article is the extracted author text up
    to its first [@]: it holds no [@], and what was cut off is nothing or
    starts with [@]. *)
Theorem parseArticleFromXml_author_local_part (itemXml : string) :
  lacks "@" (author (parseArticleFromXml itemXml)) /\
  exists rest,
    extractTextContent itemXml "author" = author (parseArticleFromXml itemXml) +:+ rest /\
    (rest = EmptyString \/ exists tail, rest = String "@" tail).
Proof.
  cbn [parseArticleFromXml author]. split.
  - apply before_at_lacks.
  - apply before_at_prefix.
Qed.

(** ** Escaping *)

Lemma escape_char_lacks_lt (c : ascii) : lacks "<" (escape_char c).
Proof. destruct c as [[] [] [] [] [] [] [] []]; reflexivity. Qed.

Lemma escapeXml_lacks_lt (str : string) : lacks "<" (escapeXml str).
Proof.
  rewrite escapeXml_escape_each.
  induction str as [| c t IH]; [reflexivity |].
  cbn [escape_each]. apply count_chars_lacks_app. split; [apply escape_char_lacks_lt | exact IH].
Qed.

Lemma escape_each_append (s1 s2 : string) :
  escape_each (s1 +:+ s2) = escape_each s1 +:+ escape_each s2.
Proof.
  induction s1 as [| c t IH]; [reflexivity |].
  change (escape_char c +:+ escape_each (t +:+ s2)
          = (escape_char c +:+ escape_each t) +:+ escape_each s2).
  now rewrite IH, append_assoc.
Qed.

(** X4. Escaping commutes with concatenation: the escaped form of a text
    is the concatenation of the escaped forms of its parts. *)
Theorem escapeXml_append (s1 s2 : string) :
  escapeXml (s1 +:+ s2) = escapeXml s1 +:+ escapeXml s2.
Proof. rewrite !escapeXml_escape_each. apply escape_each_append. Qed.

Lemma is_reserved_cases (c : ascii) :
  is_reserved c = true ->
  c = "&"%char \/ c = "<"%char \/ c = ">"%char \/ c = dquote \/ c = "'"%char.
Proof.
  destruct c as [[] [] [] [] [] [] [] []]; cbn; intros H; try discriminate H;
    unfold dquote; tauto.
Qed.

Lemma escape_char_plain (c : ascii) :
  is_reserved c = false -> escape_char c = String c EmptyString.
Proof. destruct c as [[] [] [] [] [] [] [] []]; cbn; intros H; try discriminate H; reflexivity. Qed.

Lemma escape_char_append_inj (c1 c2 : ascii) (r1 r2 : string) :
  escape_char c1 +:+ r1 = escape_char c2 +:+ r2 -> c1 = c2 /\ r1 = r2.
Proof.
  destruct (is_reserved c1) eqn:H1, (is_reserved c2) eqn:H2.
  - apply is_reserved_cases in H1, H2.
    destruct H1 as [-> | [-> | [-> | [-> | ->]]]], H2 as [-> | [-> | [-> | [-> | ->]]]];
      intros H; cbv in H; try discriminate H; injection H as H; now split.
  - apply is_reserved_cases in H1. rewrite (escape_char_plain c2 H2).
    destruct H1 as [-> | [-> | [-> | [-> | ->]]]]; intros H; cbv in H;
      injection H as <- _; discriminate H2.
  - apply is_reserved_cases in H2. rewrite (escape_char_plain c1 H1).
    destruct H2 as [-> | [-> | [-> | [-> | ->]]]]; intros H; cbv in H;
      injection H as -> _; discriminate H1.
  - rewrite (escape_char_plain c1 H1), (escape_char_plain c2 H2).
    intros H. change (String c1 r1 = String c2 r2) in H.
    injection H as -> ->. now split.
Qed.

Lemma escape_char_nonempty (c : ascii) (r : string) : escape_char c +:+ r <> EmptyString.
Proof. destruct c as [[] [] [] [] [] [] [] []]; discriminate. Qed.

(** X5. Escaping loses nothing: two texts with the same escaped form are
    the same text. *)
Theorem escapeXml_injective (s1 s2 : string) :
  escapeXml s1 = escapeXml s2 -> s1 = s2.
Proof.
  rewrite !escapeXml_escape_each. revert s2.
  induction s1 as [| c1 t1 IH]; intros [| c2 t2]; cbn [escape_each]; intros H.
  - reflexivity.
  - symmetry in H. now apply escape_char_nonempty in H.
  - now apply escape_char_nonempty in H.
  - apply escape_char_append_inj in H as [-> H]. now rewrite (IH t2 H).
Qed.

Lemma escapeXml_injective_witness :
  escapeXml "Tom & Jerry <3" = "Tom &amp; Jerry &lt;3" /\ "Tom & Jerry <3" = "Tom & Jerry <3".
Proof.
  split; [reflexivity |].
  apply (escapeXml_injective "Tom & Jerry <3" "Tom & Jerry <3"). reflexivity.
Defined.

(** ** Generating an item and parsing it again *)

Ltac skip_pieces :=
  repeat (rewrite find_match_skip
            by (reflexivity || (apply skips_lacks_lt; apply escapeXml_lacks_lt))).

Lemma extract_title_generated (a : ScoredArticle) :
  extractTextContent (generateRssItem a) "title" = trim (escapeXml (title a)).
Proof.
  unfold extractTextContent, generateRssItem. skip_pieces.
  rewrite find_match_element; [reflexivity | reflexivity | apply escapeXml_lacks_lt | reflexivity].
Qed.

Lemma extract_author_generated (a : ScoredArticle) :
  extractTextContent (generateRssItem a) "author" = trim (escapeXml (author a)).
Proof.
  unfold extractTextContent, generateRssItem. skip_pieces.
  rewrite find_match_element; [reflexivity | reflexivity | apply escapeXml_lacks_lt | reflexivity].
Qed.

Lemma extract_link_generated (a : ScoredArticle) :
  extractTextContent (generateRssItem a) "link" = trim (escapeXml (link a)).
Proof.
  unfold extractTextContent, generateRssItem. skip_pieces.
  rewrite find_match_element; [reflexivity | reflexivity | apply escapeXml_lacks_lt | reflexivity].
Qed.

Lemma extract_comments_generated (a : ScoredArticle) :
  extractTextContent (generateRssItem a) "comments" = trim (escapeXml (comments a)).
Proof.
  unfold extractTextContent, generateRssItem. skip_pieces.
  rewrite find_match_element; [reflexivity | reflexivity | apply escapeXml_lacks_lt | reflexivity].
Qed.

Lemma extract_guid_generated (a : ScoredArticle) :
  extractTextContent (generateRssItem a) "guid" = trim (escapeXml (guid a)).
Proof.
  unfold extractTextContent, generateRssItem. skip_pieces.
  rewrite <- (append_assoc (quoted "false") ">").
  rewrite <- (append_assoc "<guid isPermaLink=" (quoted "false" +:+ ">")).
  rewrite find_match_element; [reflexivity | reflexivity | apply escapeXml_lacks_lt | reflexivity].
Qed.

Lemma extract_pubDate_generated (a : ScoredArticle) :
  lacks "<" (published a) ->
  extractTextContent (generateRssItem a) "pubDate" = trim (published a).
Proof.
  intros Hdate. unfold extractTextContent, generateRssItem. skip_pieces.
  rewrite find_match_element; [reflexivity | reflexivity | exact Hdate | reflexivity].
Qed.

(** X6. An item written by [generateRssItem] is read back by
    [parseArticleFromXml] as the article with its escaped fields (each
    trimmed, the author cut at its first [@]); nothing is unescaped on the
    way in.  The date must hold no [<], since it is written as it is. *)
Theorem parseArticleFromXml_generateRssItem (a : ScoredArticle) :
  lacks "<" (published a) ->
  parseArticleFromXml (generateRssItem a)
  = {| title := trim (escapeXml (title a));
       author := before_at (trim (escapeXml (author a)));
       link := trim (escapeXml (link a));
       comments := trim (escapeXml (comments a));
       published := trim (published a);
       guid := trim (escapeXml (guid a)) |}.
Proof.
  intros Hdate. unfold parseArticleFromXml.
  rewrite extract_title_generated, extract_author_generated, extract_link_generated,
    extract_comments_generated, extract_guid_generated, (extract_pubDate_generated a Hdate).
  reflexivity.
Qed.

Lemma parseArticleFromXml_generateRssItem_witness :
  parseArticleFromXml (generateRssItem (scored "R&D" (Num 1) (Num 20)))
  = {| title := "R&amp;D";
       author := "alice";
       link := "https://example.com/R&amp;D";
       comments := "https://lobste.rs/s/R&amp;D";
       published := "Sat, 18 Oct 2025 08:29:22 -0500";
       guid := "https://lobste.rs/s/R&amp;D" |}.
Proof.
  apply (parseArticleFromXml_generateRssItem (scored "R&D" (Num 1) (Num 20))).
  reflexivity.
Defined.

(** ** The score fetcher: errors that are retried and errors that are not *)

Section RetryFacts.
Variable JSON_parse : string -> parsed.
Variable net : nat -> string -> response.
Variable config : Config.

Local Abbreviation run := (fetchArticleScore JSON_parse net config).
Local Abbreviation step := (attempt JSON_parse config).

Lemma attempt_retryable (rc : Z) (r : response) :
  retryable JSON_parse r = true ->
  step rc r =
  if rc <? maxRetries config then Retry (backoff_delay config rc) else Return (Num 0).
Proof.
  unfold retryable, attempt, on_error. destruct r as [message | text].
  - intros ->. now rewrite andb_true_r.
  - destruct (isThrottledResponse text); [reflexivity |]. cbn [orb].
    destruct (JSON_parse text) as [data | message]; [discriminate |].
    intros ->. now rewrite andb_true_r.
Qed.

(** X7. Throttle markers and JSON syntax errors draw on the same retry
    budget: when the first [k] responses of a run ([k < maxRetries]) are
    throttled bodies or errors whose message holds [Unexpected token], in
    any mix, and the next is a JSON body with the integer score [v],
    [|v| < 10^21], the run returns [v] after [k + 1] requests and the first
    [k] back-off delays. *)
Theorem fetchArticleScore_retries_then_success
    (url : string) (w : World) (k : nat) (v : Z) :
  Z.of_nat k < maxRetries config ->
  Z.abs v < 10 ^ 21 ->
  (forall i, (i < k)%nat ->
     retryable JSON_parse (net (fetch_count w + i)%nat (url +:+ ".json")) = true) ->
  (exists text data,
     net (fetch_count w + k)%nat (url +:+ ".json") = Body text /\
     isThrottledResponse text = false /\
     JSON_parse text = Parsed data /\
     destructure_score data = Ok (Some (JNum v))) ->
  exists w',
    run url 0 w = (Num v, w') /\
    total_slept w' = total_slept w + backoff_sum (retryDelay config) 0 k /\
    fetch_count w' = (fetch_count w + S k)%nat.
Proof.
  intros Hk Hv Hretry (text & data & Hnet & Hclean & Hparse & Hscore).
  destruct (fetchArticleScore_run JSON_parse net config url 0 w)
    as (n & s & w' & Hrun & _ & _ & Hcount & Hslept & _ & Hretries & Hlast).
  pose proof (attempt_scored JSON_parse config (0 + Z.of_nat k) _ _ _ _
                Hclean Hparse Hscore (parseInt_JNum v Hv)) as Hscored.
  assert (Hn : n = k).
  { destruct (Nat.lt_trichotomy n k) as [Hlt | [Heq | Hgt]]; [| exact Heq |].
    - rewrite (attempt_retryable _ _ (Hretry n Hlt)) in Hlast.
      destruct (Z.ltb_spec (0 + Z.of_nat n) (maxRetries config)); [discriminate | lia].
    - specialize (Hretries k Hgt). rewrite Hnet, Hscored in Hretries. discriminate. }
  subst n.
  rewrite Hnet, Hscored in Hlast.
  injection Hlast as <-.
  exists w'. repeat split; assumption.
Qed.

(** X8. When every response is a throttled body or an error whose message
    holds [Unexpected token], the run gives up with 0 after
    [maxRetries + 1] requests, having slept every back-off delay. *)
Theorem fetchArticleScore_retries_exhausted (url : string) (w : World) :
  0 <= maxRetries config ->
  (forall n, retryable JSON_parse (net n (url +:+ ".json")) = true) ->
  exists w',
    run url 0 w = (Num 0, w') /\
    fetch_count w' = (fetch_count w + S (Z.to_nat (maxRetries config)))%nat /\
    total_slept w' =
      total_slept w + backoff_sum (retryDelay config) 0 (Z.to_nat (maxRetries config)).
Proof.
  intros Hmax Hretry.
  destruct (fetchArticleScore_run JSON_parse net config url 0 w)
    as (n & s & w' & Hrun & _ & Hn & Hcount & Hslept & _ & _ & Hlast).
  rewrite (attempt_retryable _ _ (Hretry _)) in Hlast.
  destruct (Z.ltb_spec (0 + Z.of_nat n) (maxRetries config)) as [Hlt | Hge];
    [discriminate |].
  injection Hlast as <-. rewrite Z.sub_0_r in Hn.
  assert (Heq : n = Z.to_nat (maxRetries config)) by lia.
  exists w'. rewrite <- Heq. repeat split; assumption.
Qed.

(** X9. An error that is not a JSON syntax error with [Unexpected token]
    is never retried, however many retries remain: a failed request, a
    body that [JSON.parse] rejects with another message, or the body
    [null] make the call return 0 after its one request, without sleeping. *)
Theorem fetchArticleScore_fatal_error_not_retried (url : string) (rc : Z) (w : World) :
  (exists message,
     net (fetch_count w) (url +:+ ".json") = Failure message /\
     includes message "Unexpected token" = false) \/
  (exists text message,
     net (fetch_count w) (url +:+ ".json") = Body text /\
     isThrottledResponse text = false /\
     JSON_parse text = SyntaxError message /\
     includes message "Unexpected token" = false) \/
  (exists text,
     net (fetch_count w) (url +:+ ".json") = Body text /\
     isThrottledResponse text = false /\
     JSON_parse text = Parsed JNull) ->
  run url rc w = (Num 0, record (EvFetch (url +:+ ".json")) w).
Proof.
  intros H. rewrite fetchArticleScore_unfold.
  destruct H as [(message & -> & Hmsg) | [(text & message & -> & Hclean & Hparse & Hmsg)
                                         | (text & -> & Hclean & Hparse)]];
    unfold attempt, on_error.
  - now rewrite Hmsg, andb_false_r.
  - now rewrite Hclean, Hparse, Hmsg, andb_false_r.
  - rewrite Hclean, Hparse. cbn [destructure_score].
    now rewrite andb_false_r.
Qed.

End RetryFacts.

Lemma fetchArticleScore_retries_then_success_witness :
  exists w',
    fetchArticleScore sample_JSON_parse garbled_then_ok CONFIG "https://lobste.rs/s/abc"
      0 empty_world = (Num 15, w') /\
    total_slept w' = total_slept empty_world + backoff_sum (retryDelay CONFIG) 0 2 /\
    fetch_count w' = (fetch_count empty_world + 3)%nat.
Proof.
  apply (fetchArticleScore_retries_then_success sample_JSON_parse garbled_then_ok
           CONFIG "https://lobste.rs/s/abc" empty_world 2 15).
  - cbn. lia.
  - cbn. lia.
  - intros i Hi. destruct i as [| [| i]]; [reflexivity | reflexivity | lia].
  - exists (score_body 15), (JObj [("score", JNum 15)]). repeat split; reflexivity.
Defined.

Lemma fetchArticleScore_retries_exhausted_witness :
  exists w',
    fetchArticleScore sample_JSON_parse (fun _ _ => Body "<html>Bad gateway</html>") CONFIG
      "https://lobste.rs/s/abc" 0 empty_world = (Num 0, w') /\
    fetch_count w' = (fetch_count empty_world + S (Z.to_nat (maxRetries CONFIG)))%nat /\
    total_slept w' =
      total_slept empty_world
      + backoff_sum (retryDelay CONFIG) 0 (Z.to_nat (maxRetries CONFIG)).
Proof.
  apply (fetchArticleScore_retries_exhausted sample_JSON_parse
           (fun _ _ => Body "<html>Bad gateway</html>") CONFIG
           "https://lobste.rs/s/abc" empty_world).
  - cbn. lia.
  - intros n. reflexivity.
Defined.

Lemma fetchArticleScore_fatal_error_not_retried_witness :
  fetchArticleScore sample_JSON_parse failing_net CONFIG "https://lobste.rs/s/abc"
    0 empty_world
  = (Num 0, record (EvFetch ("https://lobste.rs/s/abc" +:+ ".json")) empty_world).
Proof.
  apply (fetchArticleScore_fatal_error_not_retried sample_JSON_parse failing_net CONFIG
           "https://lobste.rs/s/abc" 0 empty_world).
  left. exists "fetch failed". split; reflexivity.
Defined.

(** ** The scoring loop *)

Section LoopFacts.
Variable JSON_parse : string -> parsed.
Variable Date_getTime : string -> jsnum.
Variable net : nat -> string -> response.
Variable config : Config.

Local Abbreviation loop := (score_articles JSON_parse Date_getTime net config).
Local Abbreviation pipeline := (fetchAllArticles JSON_parse Date_getTime net config).

(** Worst case of one score lookup: every back-off delay. *)
Local Abbreviation backoff_total :=
  (backoff_sum (retryDelay config) 0 (Z.to_nat (maxRetries config))).

Lemma score_articles_articles (parsedArticles : list Article) :
  forall w : World,
    map (fun a : ScoredArticle => (article a, timestamp a)) (fst (loop parsedArticles w))
    = map (fun a : Article => (a, Date_getTime (published a))) parsedArticles.
Proof.
  induction parsedArticles as [| a rest IH]; intros w; [reflexivity |].
  cbn [score_articles].
  destruct (fetchArticleScore JSON_parse net config (comments a) 0 w) as [s w1].
  set (w2 := match rest with [] => w1 | _ :: _ => sleep (rateLimitDelay config) w1 end).
  specialize (IH w2). destruct (loop rest w2) as [others w3].
  cbn [fst map article timestamp] in *. now rewrite IH.
Qed.

Lemma score_articles_bounds (parsedArticles : list Article) :
  0 <= retryDelay config -> 0 <= rateLimitDelay config ->
  forall w : World,
    let w' := snd (loop parsedArticles w) in
    let n := List.length parsedArticles in
    (fetch_count w + n <= fetch_count w')%nat /\
    (fetch_count w' <= fetch_count w + n * S (Z.to_nat (maxRetries config)))%nat /\
    total_slept w + Z.of_nat (Nat.pred n) * rateLimitDelay config <= total_slept w' /\
    total_slept w' <= total_slept w + Z.of_nat n * backoff_total
                      + Z.of_nat (Nat.pred n) * rateLimitDelay config.
Proof.
  intros Hdelay Hpause.
  induction parsedArticles as [| a rest IH]; intros w.
  - cbn. lia.
  - cbn [score_articles].
    destruct (fetchArticleScore_run JSON_parse net config (comments a) 0 w)
      as (k & s & w1 & Hrun & _ & Hk & Hcount & Hslept & _).
    rewrite Hrun. rewrite Z.sub_0_r in Hk.
    pose proof (backoff_sum_mono (retryDelay config) 0 _ _ Hdelay Hk) as Hmono.
    pose proof (backoff_sum_nonneg (retryDelay config) 0 k Hdelay) as Hnonneg.
    set (w2 := match rest with [] => w1 | _ :: _ => sleep (rateLimitDelay config) w1 end).
    assert (Hw2 : fetch_count w2 = fetch_count w1 /\
                  total_slept w2 = total_slept w1
                                   + (match rest with [] => 0 | _ :: _ => rateLimitDelay config end)).
    { subst w2. destruct rest; split; try reflexivity; [lia |].
      rewrite total_slept_sleep. lia. }
    destruct Hw2 as [Hcount2 Hslept2].
    specialize (IH w2). destruct (loop rest w2) as [others w3].
    cbn [snd] in *. destruct IH as (IH1 & IH2 & IH3 & IH4).
    cbn [List.length]. destruct rest as [| b rest].
    + cbn [List.length Nat.pred] in *. repeat split; nia.
    + cbn [List.length Nat.pred] in *.
      rewrite ?Nat2Z.inj_succ in *. repeat split; nia.
Qed.

(** X10. When the feed arrives, [fetchAllArticles] returns exactly the
    articles of its item fragments that have a [comments] text, in feed
    order, each with the timestamp of its date; no article is returned
    without [comments]. *)
Theorem fetchAllArticles_articles (url : string) (w : World) (xmlText : string) :
  net (fetch_count w) url = Body xmlText ->
  map (fun a : ScoredArticle => (article a, timestamp a)) (fst (pipeline url w))
  = map (fun a : Article => (a, Date_getTime (published a))) (articles_of_feed xmlText) /\
  Forall (fun a : ScoredArticle => comments a <> EmptyString) (fst (pipeline url w)).
Proof.
  intros Hnet.
  assert (Hmap :
    map (fun a : ScoredArticle => (article a, timestamp a)) (fst (pipeline url w))
    = map (fun a : Article => (a, Date_getTime (published a))) (articles_of_feed xmlText)).
  { unfold fetchAllArticles, fetch. rewrite Hnet. apply score_articles_articles. }
  split; [exact Hmap |].
  assert (Harticles : map article (fst (pipeline url w)) = articles_of_feed xmlText).
  { rewrite <- (map_map (fun a : ScoredArticle => (article a, timestamp a)) fst), Hmap.
    rewrite map_map. apply map_id. }
  apply List.Forall_forall. intros a Ha.
  assert (Hin : In (article a) (articles_of_feed xmlText)).
  { rewrite <- Harticles. now apply in_map. }
  unfold articles_of_feed in Hin. apply filter_In in Hin as [_ Hhas].
  unfold has_comments in Hhas. intros Hempty. rewrite Hempty in Hhas. discriminate.
Qed.

(** X11. One run of the pipeline is bounded: with [n] articles returned it
    makes the feed request and between [n] and [n * (maxRetries + 1)] score
    requests, and it sleeps at least the [n - 1] pauses of [rateLimitDelay]
    and at most those pauses plus [n] times the sum of all back-off
    delays. *)
Theorem fetchAllArticles_bounded (url : string) (w : World) :
  0 <= retryDelay config -> 0 <= rateLimitDelay config ->
  let w' := snd (pipeline url w) in
  let n := List.length (fst (pipeline url w)) in
  (fetch_count w + 1 + n <= fetch_count w')%nat /\
  (fetch_count w' <= fetch_count w + 1 + n * S (Z.to_nat (maxRetries config)))%nat /\
  total_slept w + Z.of_nat (Nat.pred n) * rateLimitDelay config <= total_slept w' /\
  total_slept w' <= total_slept w + Z.of_nat n * backoff_total
                    + Z.of_nat (Nat.pred n) * rateLimitDelay config.
Proof.
  intros Hdelay Hpause. unfold fetchAllArticles, fetch.
  destruct (net (fetch_count w) url) as [message | xmlText].
  - cbv zeta. cbn [fst snd List.length Nat.pred].
    rewrite fetch_count_record_fetch, total_slept_record_fetch. repeat split; lia.
  - fold (articles_of_feed xmlText).
    pose proof (score_articles_bounds (articles_of_feed xmlText) Hdelay Hpause
                  (record (EvFetch url) w)) as Hb.
    pose proof (score_articles_articles (articles_of_feed xmlText)
                  (record (EvFetch url) w)) as Hmap.
    apply (f_equal (@List.length _)) in Hmap. rewrite !length_map in Hmap.
    cbv zeta in Hb. rewrite <- Hmap in Hb.
    rewrite fetch_count_record_fetch, total_slept_record_fetch in Hb.
    cbv zeta. destruct Hb as (H1 & H2 & H3 & H4). repeat split; lia.
Qed.

(** X12. The pipeline never reads or writes the store: its run adds no
    store operation and leaves every key as it was. *)
Theorem fetchAllArticles_leaves_store (url : string) (w : World) :
  store_events (snd (pipeline url w)) = store_events w /\
  kv (snd (pipeline url w)) = kv w.
Proof. apply fetchAllArticles_store. Qed.

End LoopFacts.

Lemma fetchAllArticles_articles_witness :
  map (fun a : ScoredArticle => (article a, timestamp a))
    (fst (fetchAllArticles sample_JSON_parse sample_Date_getTime sample_net CONFIG
            (feedUrl CONFIG) empty_world))
  = [({| title := "Test Article"; author := "testuser";
         link := "https://lobste.rs/s/test/test-article";
         comments := "https://lobste.rs/s/test/test-article";
         published := "Sat, 18 Oct 2025 08:29:22 -0500";
         guid := "test-guid" |}, Num 1760794162000)].
Proof.
  destruct (fetchAllArticles_articles sample_JSON_parse sample_Date_getTime sample_net
              CONFIG (feedUrl CONFIG) empty_world sample_feed eq_refl) as [Hmap _].
  exact Hmap.
Defined.

Lemma fetchAllArticles_bounded_witness :
  (fetch_count
     (snd (fetchAllArticles sample_JSON_parse sample_Date_getTime sample_net CONFIG
             (feedUrl CONFIG) empty_world)) <= 5)%nat.
Proof.
  destruct (fetchAllArticles_bounded sample_JSON_parse sample_Date_getTime sample_net
              CONFIG (feedUrl CONFIG) empty_world) as (_ & Hmax & _).
  - cbn. lia.
  - cbn. lia.
  - exact Hmax.
Defined.

(** ** Throttle markers *)

Lemma prefix_spec (p s : string) :
  String.prefix p s = true <-> exists rest, s = p +:+ rest.
Proof.
  revert s. induction p as [| a p IH]; intros s.
  - split; [intros _; now exists s | intros _; destruct s; reflexivity].
  - destruct s as [| b s].
    + split; [discriminate | intros [rest H]; discriminate H].
    + cbn [String.prefix]. destruct (ascii_dec a b) as [-> | Hne].
      * rewrite IH. split; intros [rest H]; exists rest.
        -- change (String b s = String b (p +:+ rest)). now rewrite H.
        -- change (String b s = String b (p +:+ rest)) in H. now injection H.
      * split; [discriminate |]. intros [rest H].
        change (String b s = String a (p +:+ rest)) in H. injection H as H _. congruence.
Qed.

Lemma includes_spec (text needle : string) :
  includes text needle = true <-> exists before after, text = before +:+ needle +:+ after.
Proof.
  induction text as [| c t IH].
  - cbn [includes]. rewrite orb_false_r, prefix_spec. split.
    + intros [rest H]. now exists EmptyString, rest.
    + intros (before & after & H). destruct before as [| x before]; [| discriminate H].
      now exists after.
  - cbn [includes]. rewrite orb_true_iff, prefix_spec, IH. split.
    + intros [[rest H] | (before & after & H)].
      * now exists EmptyString, rest.
      * exists (String c before), after.
        change (String c t = String c (before +:+ needle +:+ after)). now rewrite H.
    + intros (before & after & H). destruct before as [| x before].
      * left. now exists after.
      * right. exists before, after.
        change (String c t = String x (before +:+ needle +:+ after)) in H.
        now injection H.
Qed.

(** X13. A response counts as throttled exactly when its text holds
    [Throttled] or [Rate limit] somewhere, in this spelling. *)
Theorem isThrottledResponse_spec (text : string) :
  isThrottledResponse text = true <->
  exists before after,
    text = before +:+ "Throttled" +:+ after \/ text = before +:+ "Rate limit" +:+ after.
Proof.
  unfold isThrottledResponse. rewrite orb_true_iff, !includes_spec. split.
  - intros [(b & a & H) | (b & a & H)]; exists b, a; [now left | now right].
  - intros (b & a & [H | H]); [left | right]; now exists b, a.
Qed.

(** ** The document *)

(** X14. Whatever the timestamps are, the emitted articles are the input
    articles with [score > minimumScore], each as often as it came in; an
    emitted score is a number above [minimumScore], so an article whose
    score is [NaN] is never emitted. *)
Theorem filteredAndSorted_selection (config : Config) (articles : list ScoredArticle) :
  Permutation (filteredAndSorted config articles)
    (List.filter (meets_minimum config) articles) /\
  Forall (fun a => exists z, score a = Num z /\ minimumScore config < z)
    (filteredAndSorted config articles).
Proof.
  unfold filteredAndSorted. split; [apply array_sort_perm |].
  eapply Permutation_Forall; [symmetry; apply array_sort_perm |].
  apply List.Forall_forall. intros a Ha. apply filter_In in Ha as [_ Hmin].
  unfold meets_minimum, js_gt in Hmin.
  destruct (score a) as [z |]; [| discriminate].
  exists z. split; [reflexivity | now apply Z.ltb_lt].
Qed.

Lemma filter_none {A : Type} (f : A -> bool) (l : list A) :
  Forall (fun a => f a = false) l -> List.filter f l = [].
Proof.
  induction 1 as [| a l Ha _ IH]; [reflexivity |].
  cbn [List.filter]. now rewrite Ha.
Qed.

(** X15. When no article has [score > minimumScore] (an empty list
    included) the document is the channel without items. *)
Theorem writeArticlesFeed_no_items (config : Config) (articles : list ScoredArticle) :
  Forall (fun a => js_gt (score a) (Num (minimumScore config)) = false) articles ->
  writeArticlesFeed config articles = feed_header +:+ feed_footer.
Proof.
  intros Hnone. unfold writeArticlesFeed, filteredAndSorted.
  now rewrite (filter_none (meets_minimum config) articles Hnone).
Qed.

Lemma writeArticlesFeed_no_items_witness :
  writeArticlesFeed CONFIG [scored "a" (Num 1) (Num 10); scored "b" (Num 2) NaN]
  = feed_header +:+ feed_footer.
Proof.
  apply (writeArticlesFeed_no_items CONFIG
           [scored "a" (Num 1) (Num 10); scored "b" (Num 2) NaN]).
  repeat constructor.
Defined.


(** ** The handlers *)

Section HandlerFacts.
Variable JSON_parse : string -> parsed.
Variable Date_getTime : string -> jsnum.
Variable net : nat -> string -> response.
Variable kv_fault : nat -> option string.

Local Abbreviation handler := (worker_fetch JSON_parse Date_getTime net kv_fault).
Local Abbreviation fresh := (generate_fresh JSON_parse Date_getTime net kv_fault).
Local Abbreviation pipeline :=
  (fetchAllArticles JSON_parse Date_getTime net CONFIG (feedUrl CONFIG)).
Local Abbreviation key := (cacheKey CONFIG).
Local Abbreviation ttl := (cacheMaxAge CONFIG).

Lemma worker_fetch_feed_path (request : Request) (w : World) :
  pathname request = "/" ->
  handler request w =
  if negb (bypasses request) then
    let '(r, w1) := kv_get kv_fault key w in
    match r with
    | Throw _ => (Ok error_response, w1)
    | Ok cachedFeed =>
        if truthy cachedFeed
        then (Ok (feed_response (default EmptyString cachedFeed) "HIT"), w1)
        else let '(resp, w2) := fresh w1 in (Ok resp, w2)
    end
  else let '(resp, w1) := fresh w in (Ok resp, w1).
Proof. intros Hpath. unfold worker_fetch, bypasses. rewrite Hpath. reflexivity. Qed.

Lemma worker_fetch_clear_path (request : Request) (w : World) :
  pathname request = "/clear-cache" ->
  handler request w =
  let '(r, w1) := kv_delete kv_fault key w in
  match r with
  | Throw message => (Throw message, w1)
  | Ok _ =>
      (Ok {| status := 200; headers := [("Content-Type", "text/plain")];
             body := "Cache cleared successfully" |}, w1)
  end.
Proof. intros Hpath. unfold worker_fetch. rewrite Hpath. reflexivity. Qed.

Lemma store_count_pipeline (w : World) : store_count (snd (pipeline w)) = store_count w.
Proof.
  unfold store_count. fold (store_events (snd (pipeline w))). fold (store_events w).
  now rewrite (proj1 (fetchAllArticles_store JSON_parse Date_getTime net CONFIG
                        (feedUrl CONFIG) w)).
Qed.

(** What the regeneration can end in: the document stored and served, or
    the put failed and the store is as before. *)
Lemma generate_fresh_cases (w : World) :
  (kv_fault (store_count w) = None /\
   fresh w = (feed_response (writeArticlesFeed CONFIG (fst (pipeline w))) "MISS",
              stored key (writeArticlesFeed CONFIG (fst (pipeline w))) ttl
                (snd (pipeline w)))) \/
  (kv_fault (store_count w) <> None /\
   fst (fresh w) = error_response /\ kv (snd (fresh w)) = kv w).
Proof.
  destruct (kv_fault (store_count w)) as [message |] eqn:Hfault.
  - right. split; [discriminate |]. unfold generate_fresh.
    pose proof (store_count_pipeline w) as Hcount.
    pose proof (proj2 (fetchAllArticles_store JSON_parse Date_getTime net CONFIG
                         (feedUrl CONFIG) w)) as Hkv.
    destruct (pipeline w) as [articles w1]. cbn [snd] in Hcount, Hkv.
    unfold kv_put. rewrite Hcount, Hfault. split; [reflexivity | exact Hkv].
  - left. split; [reflexivity |]. now apply generate_fresh_stores.
Qed.




(** X17. A request to [/clear-cache] deletes the entry of the cache key
    and nothing else, makes no network request and confirms in plain text,
    whether or not there was an entry; when the store throws, the error is
    not turned into a 500 response: the handler rejects with it. *)
Theorem worker_fetch_clear_cache (request : Request) (w : World) :
  pathname request = "/clear-cache" ->
  (kv_fault (store_count w) = None ->
   let w' := snd (handler request w) in
   fst (handler request w)
     = Ok {| status := 200; headers := [("Content-Type", "text/plain")];
             body := "Cache cleared successfully" |} /\
   kv w' !! key = None /\
   (forall other, other <> key -> kv w' !! other = kv w !! other) /\
   trace w' = EvDelete key :: trace w) /\
  (forall message, kv_fault (store_count w) = Some message ->
     handler request w = (Throw message, record (EvDelete key) w)).
Proof.
  intros Hpath. rewrite (worker_fetch_clear_path request w Hpath). unfold kv_delete.
  split.
  - intros ->. cbn [fst snd kv trace]. repeat split.
    + apply lookup_delete_eq.
    + intros other Hne. now apply lookup_delete_ne.
  - intros message ->. reflexivity.
Qed.

(** X18. After a [/clear-cache] (with a store that does not fail) a
    request to [/] regenerates: it runs the pipeline and serves its
    document marked [MISS]; clearing twice leaves the store as clearing
    once does. *)
Theorem worker_fetch_clear_then_miss (clear next_request : Request) (w : World) :
  (forall n, kv_fault n = None) ->
  pathname clear = "/clear-cache" -> pathname next_request = "/" ->
  let cleared := snd (handler clear w) in
  (exists rssFeed,
     fst (handler next_request cleared) = Ok (feed_response rssFeed "MISS") /\
     kv (snd (handler next_request cleared)) !! key = Some (rssFeed, ttl) /\
     (fetch_count cleared < fetch_count (snd (handler next_request cleared)))%nat) /\
  kv (snd (handler clear cleared)) = kv cleared.
Proof.
  intros Hstore Hclear Hpath cleared.
  assert (Hcleared : kv cleared = delete key (kv w)).
  { subst cleared. rewrite (worker_fetch_clear_path clear w Hclear). unfold kv_delete.
    now rewrite Hstore. }
  split.
  - assert (Hfresh : forall w0,
               exists rssFeed,
                 fresh w0 = (feed_response rssFeed "MISS",
                             stored key rssFeed ttl (snd (pipeline w0))) /\
                 (fetch_count w0 < fetch_count (snd (pipeline w0)))%nat).
    { intros w0. destruct (generate_fresh_cases w0) as [[_ H] | [H _]].
      - eexists. split; [exact H |].
        unfold fetchAllArticles, fetch.
        destruct (net (fetch_count w0) (feedUrl CONFIG)) as [message | xmlText].
        + cbn [snd]. rewrite fetch_count_record_fetch. lia.
        + pose proof (score_articles_bounds JSON_parse Date_getTime net CONFIG
                        (articles_of_feed xmlText) ltac:(cbn; lia) ltac:(cbn; lia)
                        (record (EvFetch (feedUrl CONFIG)) w0)) as (Hlow & _).
          fold (articles_of_feed xmlText).
          rewrite fetch_count_record_fetch in Hlow. lia.
      - now rewrite Hstore in H. }
    rewrite (worker_fetch_feed_path next_request cleared Hpath).
    destruct (bypasses next_request); cbn [negb].
    + destruct (Hfresh cleared) as (rssFeed & -> & Hcount). exists rssFeed.
      cbn [fst snd]. split; [reflexivity |]. split; [apply lookup_insert_eq |].
      exact Hcount.
    + unfold kv_get. rewrite Hstore, Hcleared, lookup_delete_eq.
      cbn [fmap option_fmap option_map truthy].
      destruct (Hfresh (record (EvGet key) cleared)) as (rssFeed & -> & Hcount).
      exists rssFeed. cbn [fst snd]. split; [reflexivity |].
      split; [apply lookup_insert_eq |].
      exact Hcount.
  - rewrite (worker_fetch_clear_path clear cleared Hclear). unfold kv_delete.
    rewrite Hstore. cbn [snd kv]. rewrite Hcleared. apply delete_delete_eq.
Qed.


End HandlerFacts.

Section WarmFacts.
Variable JSON_parse : string -> parsed.
Variable Date_getTime : string -> jsnum.
Variable net : nat -> string -> response.
Variable kv_fault : nat -> option string.

(** X20. [warmCache] regenerates whatever the store holds: it never reads
    the store; when the put succeeds it returns [true] and the cache key
    holds the new document with the configured TTL, replacing any earlier
    one; when the put throws it returns [false] and the store keeps what it
    held. *)
Theorem warmCache_overwrites_or_keeps (config : Config) (w : World) :
  let pipeline := fetchAllArticles JSON_parse Date_getTime net config (feedUrl config) w in
  let rssFeed := writeArticlesFeed config (fst pipeline) in
  let warmed := warmCache JSON_parse Date_getTime net config kv_fault w in
  (kv_fault (store_count w) = None ->
   fst warmed = true /\
   kv (snd warmed) = <[cacheKey config := (rssFeed, cacheMaxAge config)]> (kv w) /\
   store_events (snd warmed)
     = EvPut (cacheKey config) rssFeed (cacheMaxAge config) :: store_events w) /\
  (kv_fault (store_count w) <> None ->
   fst warmed = false /\ kv (snd warmed) = kv w /\
   List.filter is_get (trace (snd warmed)) = List.filter is_get (trace w)).
Proof.
  cbv zeta. unfold warmCache.
  pose proof (fetchAllArticles_store JSON_parse Date_getTime net config (feedUrl config) w)
    as [Hev Hkv].
  destruct (fetchAllArticles JSON_parse Date_getTime net config (feedUrl config) w)
    as [articles w1].
  cbn [fst snd] in *.
  assert (Hcount : store_count w1 = store_count w).
  { unfold store_count. fold (store_events w1). fold (store_events w). now rewrite Hev. }
  assert (Hgets : List.filter is_get (trace w1) = List.filter is_get (trace w)).
  { assert (Hsub : forall l, List.filter is_get l = List.filter is_get (List.filter is_store_op l)).
    { induction l as [| e l IH]; [reflexivity |].
      destruct e; cbn [List.filter is_get is_store_op]; now rewrite IH. }
    rewrite (Hsub (trace w1)), (Hsub (trace w)).
    fold (store_events w1). fold (store_events w). now rewrite Hev. }
  unfold kv_put. rewrite Hcount.
  destruct (kv_fault (store_count w)) as [message |]; split; intros H; try congruence.
  - cbn [fst snd record trace kv List.filter is_get]. repeat split; assumption.
  - unfold stored, store_events. cbn [fst snd trace kv List.filter is_store_op].
    repeat split.
    + now rewrite Hkv.
    + f_equal. exact Hev.
Qed.


End WarmFacts.

(** *** The sample host at work *)


Lemma worker_fetch_clear_cache_witness :
  kv (snd (worker_fetch sample_JSON_parse sample_Date_getTime sample_net reliable_store
             clear_request warm_world)) !! cacheKey CONFIG = None /\
  worker_fetch sample_JSON_parse sample_Date_getTime sample_net broken_store
    clear_request warm_world
  = (Throw "KV unavailable", record (EvDelete (cacheKey CONFIG)) warm_world).
Proof.
  destruct (worker_fetch_clear_cache sample_JSON_parse sample_Date_getTime sample_net
              reliable_store clear_request warm_world eq_refl) as [Hok _].
  destruct (worker_fetch_clear_cache sample_JSON_parse sample_Date_getTime sample_net
              broken_store clear_request warm_world eq_refl) as [_ Hfail].
  split.
  - destruct (Hok eq_refl) as (_ & Hgone & _). exact Hgone.
  - apply (Hfail "KV unavailable"). reflexivity.
Defined.

Lemma worker_fetch_clear_then_miss_witness :
  exists rssFeed,
    fst (worker_fetch sample_JSON_parse sample_Date_getTime sample_net reliable_store
           root_request
           (snd (worker_fetch sample_JSON_parse sample_Date_getTime sample_net
                   reliable_store clear_request warm_world)))
    = Ok (feed_response rssFeed "MISS").
Proof.
  destruct (worker_fetch_clear_then_miss sample_JSON_parse sample_Date_getTime sample_net
              reliable_store clear_request root_request warm_world)
    as [(rssFeed & Hserved & _) _].
  - intros n. reflexivity.
  - reflexivity.
  - reflexivity.
  - exists rssFeed. exact Hserved.
Defined.


Lemma warmCache_overwrites_or_keeps_witness :
  fst (warmCache sample_JSON_parse sample_Date_getTime sample_net CONFIG reliable_store
         warm_world) = true /\
  fst (warmCache sample_JSON_parse sample_Date_getTime sample_net CONFIG broken_store
         warm_world) = false /\
  kv (snd (warmCache sample_JSON_parse sample_Date_getTime sample_net CONFIG broken_store
             warm_world)) = kv warm_world.
Proof.
  destruct (warmCache_overwrites_or_keeps sample_JSON_parse sample_Date_getTime sample_net
              reliable_store CONFIG warm_world) as [Hok _].
  destruct (warmCache_overwrites_or_keeps sample_JSON_parse sample_Date_getTime sample_net
              broken_store CONFIG warm_world) as [_ Hfail].
  split; [exact (proj1 (Hok eq_refl)) |].
  destruct Hfail as (Hfalse & Hkept & _); [discriminate |].
  split; [exact Hfalse | exact Hkept].
Defined.


(** ** Item fragments of a feed *)

Lemma mismatch_within_append (p a b : string) :
  mismatch_within p a = true -> mismatch_within p (a +:+ b) = true.
Proof.
  revert a. induction p as [| x p IH]; intros a H; [destruct a; discriminate |].
  destruct a as [| y a]; [discriminate |].
  change (mismatch_within (String x p) (String y (a +:+ b)) = true).
  cbn [mismatch_within] in *.
  destruct (Ascii.eqb (lower x) (lower y)); [now apply IH | reflexivity].
Qed.

Lemma skips_append (p a b : string) :
  skips p a = true -> skips p b = true -> skips p (a +:+ b) = true.
Proof.
  intros Ha Hb. induction a as [| x a IH]; [exact Hb |].
  cbn [skips] in Ha. apply andb_prop in Ha as [Hhere Hrest].
  change (mismatch_within p (String x a +:+ b) && skips p (a +:+ b) = true).
  rewrite (mismatch_within_append p (String x a) b Hhere). cbn [andb]. now apply IH.
Qed.

Lemma skips_lacks_first (c : ascii) (p e : string) :
  (forall x, Ascii.eqb (lower c) (lower x) = Ascii.eqb c x) ->
  lacks c e -> skips (String c p) e = true.
Proof.
  intros Hc. unfold lacks. induction e as [| x e IH]; [reflexivity |].
  cbn [count_chars skips mismatch_within]. rewrite Hc.
  destruct (Ascii.eqb c x); [discriminate |].
  intros H. cbn [andb]. now apply IH.
Qed.

Lemma match_here_fragment (fragment rest : string) :
  item_fragment fragment ->
  exists inner, match_here "item" (fragment +:+ rest) = Some (fragment, inner, rest).
Proof.
  intros (opening & inner & closing & -> & Hopen & Hinner & Hclose).
  exists inner. unfold opens in Hopen. unfold ci_eqb in Hclose. unfold match_here.
  destruct (strip_prefix_ci ("<" +:+ "item") opening) as [attrs |] eqn:Hp; [| discriminate].
  destruct (after_gt attrs) as [[| ? ?] |] eqn:Hgt; try discriminate.
  destruct (strip_prefix_ci "</item>" closing) as [[| ? ?] |] eqn:Hc; try discriminate.
  rewrite !append_assoc.
  rewrite (strip_prefix_ci_append _ _ _ _ Hp), (after_gt_append _ _ _ Hgt).
  change (EmptyString +:+ inner +:+ closing +:+ rest) with (inner +:+ closing +:+ rest).
  change ("</" +:+ "item" +:+ ">") with "</item>".
  rewrite (until_close_skip "</item>" inner _ Hinner).
  rewrite (until_close_head "</item>" (closing +:+ rest) rest
             (strip_prefix_ci_append _ _ _ rest Hc)).
  rewrite append_nil_r. do 2 f_equal. f_equal.
  rewrite <- !append_assoc, length_append.
  replace (String.length ((opening +:+ inner) +:+ closing) + String.length rest
           - String.length rest)%nat
    with (String.length ((opening +:+ inner) +:+ closing)) by lia.
  apply substring_append.
Qed.

Lemma find_match_nothing (tag tail : string) :
  skips ("<" +:+ tag) tail = true -> find_match tag tail = None.
Proof.
  intros H. rewrite <- (append_nil_r tail), (find_match_skip tag tail EmptyString H).
  reflexivity.
Qed.

Lemma match_all_fuel_feed (elements : list (string * string)) (tail : string) :
  Forall (fun e => skips "<item" (fst e) = true /\
                   forall rest, exists inner,
                     match_here "item" (snd e +:+ rest) = Some (snd e, inner, rest))
    elements ->
  skips "<item" tail = true ->
  forall fuel, (String.length (feed_text elements tail) <= fuel)%nat ->
    match_all_fuel fuel "item" (feed_text elements tail) = map snd elements.
Proof.
  intros Hall Htail. induction Hall as [| [gap fragment] elements [Hgap Hfrag] _ IH];
    intros fuel Hfuel.
  - cbn [feed_text map]. destruct fuel; [reflexivity |].
    cbn [match_all_fuel]. now rewrite (find_match_nothing "item" tail Htail).
  - cbn [feed_text map fst snd] in *.
    destruct (Hfrag (feed_text elements tail)) as [inner Hhere].
    pose proof (match_here_rest _ _ _ _ _ Hhere) as Hshorter.
    rewrite !length_append in Hfuel. rewrite length_append in Hshorter.
    destruct fuel as [| fuel]; [lia |].
    cbn [match_all_fuel].
    rewrite (find_match_skip "item" gap _ Hgap).
    assert (Hfind : find_match "item" (fragment +:+ feed_text elements tail)
                    = Some (fragment, inner, feed_text elements tail)).
    { destruct (fragment +:+ feed_text elements tail); cbn [find_match]; now rewrite Hhere. }
    rewrite Hfind. f_equal. apply IH. lia.
Qed.

(** X22. In a feed made of item elements, each after a gap in which no
    position can start [<item], the global match finds exactly these
    elements, in order; text without any element gives [null]. *)
Theorem match_items_well_formed (elements : list (string * string)) (tail : string) :
  Forall (fun e => skips "<item" (fst e) = true /\ item_fragment (snd e)) elements ->
  skips "<item" tail = true ->
  match_items (feed_text elements tail)
  = match elements with
    | [] => None
    | _ :: _ => Some (map snd elements)
    end.
Proof.
  intros Hall Htail. unfold match_items.
  rewrite (match_all_fuel_feed elements tail); [destruct elements as [| [gap f] r]; reflexivity | | exact Htail | lia].
  eapply List.Forall_impl; [| exact Hall].
  intros e [Hgap Hfrag]. split; [exact Hgap |].
  intros rest. now apply match_here_fragment.
Qed.

Lemma match_items_well_formed_witness :
  match_items
    (feed_text [("<rss><channel>", "<item><title>A</title></item>");
                ("  ", "<ITEM id=2><title>B</title></Item>")] "</channel></rss>")
  = Some ["<item><title>A</title></item>"; "<ITEM id=2><title>B</title></Item>"].
Proof.
  apply (match_items_well_formed
           [("<rss><channel>", "<item><title>A</title></item>");
            ("  ", "<ITEM id=2><title>B</title></Item>")] "</channel></rss>").
  - repeat constructor.
    + exists "<item>", "<title>A</title>", "</item>". repeat split.
    + exists "<ITEM id=2>", "<title>B</title>", "</Item>". repeat split.
  - reflexivity.
Defined.

(** ** Reading the worker's own document *)

Lemma generateRssItem_item_element (a : ScoredArticle) :
  generateRssItem a = TAB +:+ item_element a.
Proof. reflexivity. Qed.

Lemma skips_close_item_lacks (e : string) : lacks "<" e -> skips "</item>" e = true.
Proof. apply (skips_lacks_first "<" "/item>"). exact lower_lt. Qed.

Lemma item_element_fragment (a : ScoredArticle) :
  lacks "<" (published a) -> item_fragment (item_element a).
Proof.
  intros Hdate.
  exists "<item>",
    (NL +:+
     TAB +:+ TAB +:+ "<title>" +:+ escapeXml (title a) +:+ "</title>" +:+ NL +:+
     TAB +:+ TAB +:+ "<author>" +:+ escapeXml (author a) +:+ "</author>" +:+ NL +:+
     TAB +:+ TAB +:+ "<link>" +:+ escapeXml (link a) +:+ "</link>" +:+ NL +:+
     TAB +:+ TAB +:+ "<comments>" +:+ escapeXml (comments a) +:+ "</comments>" +:+ NL +:+
     TAB +:+ TAB +:+ "<wfw:commentRss>" +:+ escapeXml (comments a) +:+ "</wfw:commentRss>" +:+ NL +:+
     TAB +:+ TAB +:+ "<guid isPermaLink=" +:+ quoted "false" +:+ ">" +:+ escapeXml (guid a) +:+ "</guid>" +:+ NL +:+
     TAB +:+ TAB +:+ "<pubDate>" +:+ published a +:+ "</pubDate>" +:+ NL +:+
     TAB),
    "</item>".
  split; [| split; [reflexivity | split; [| reflexivity]]].
  - unfold item_element. rewrite !append_assoc. reflexivity.
  - repeat (apply skips_append;
            [first [reflexivity
                   | apply skips_close_item_lacks; apply escapeXml_lacks_lt
                   | apply skips_close_item_lacks; exact Hdate] |]).
    reflexivity.
Qed.

Lemma document_feed_text (gap tail : string) (a : ScoredArticle)
    (rest : list ScoredArticle) :
  gap +:+ join NL (map generateRssItem (a :: rest)) +:+ tail
  = feed_text (elements_from gap (a :: rest)) tail.
Proof.
  revert gap a. induction rest as [| b rest IH]; intros gap a.
  - cbn [map join elements_from feed_text]. rewrite generateRssItem_item_element.
    now rewrite !append_assoc.
  - change (join NL (map generateRssItem (a :: b :: rest)))
      with (generateRssItem a +:+ NL +:+ join NL (map generateRssItem (b :: rest))).
    change (feed_text (elements_from gap (a :: b :: rest)) tail)
      with ((gap +:+ TAB) +:+ item_element a
            +:+ feed_text (elements_from NL (b :: rest)) tail).
    rewrite <- (IH NL b).
    rewrite generateRssItem_item_element. now rewrite !append_assoc.
Qed.

Lemma elements_from_snd (gap : string) (emitted : list ScoredArticle) :
  map snd (elements_from gap emitted) = map item_element emitted.
Proof.
  revert gap. induction emitted as [| a rest IH]; intros gap; [reflexivity |].
  cbn [elements_from map snd]. now rewrite IH.
Qed.

Lemma elements_from_well_formed (gap : string) (emitted : list ScoredArticle) :
  skips "<item" (gap +:+ TAB) = true ->
  Forall (fun a : ScoredArticle => lacks "<" (published a)) emitted ->
  Forall (fun e => skips "<item" (fst e) = true /\
                   forall rest, exists inner,
                     match_here "item" (snd e +:+ rest) = Some (snd e, inner, rest))
    (elements_from gap emitted).
Proof.
  intros Hgap Hall. revert gap Hgap.
  induction Hall as [| a rest Ha _ IH]; intros gap Hgap; [constructor |].
  cbn [elements_from]. constructor.
  - split; [exact Hgap |]. intros r. apply match_here_fragment.
    now apply item_element_fragment.
  - apply IH. reflexivity.
Qed.

Lemma parseArticleFromXml_item_element (a : ScoredArticle) :
  parseArticleFromXml (item_element a) = parseArticleFromXml (generateRssItem a).
Proof.
  rewrite generateRssItem_item_element.
  unfold parseArticleFromXml, extractTextContent.
  now rewrite !(find_match_skip _ TAB (item_element a) eq_refl).
Qed.

(** X23. The articles that the worker reads from a document it wrote are
    the emitted articles as [parseArticleFromXml] reads each written item,
    in the same order, without those whose [comments] is empty.  The dates
    must hold no [<], since they are written as they are. *)
Theorem articles_of_feed_writeArticlesFeed
    (config : Config) (articles : list ScoredArticle) :
  Forall (fun a : ScoredArticle => lacks "<" (published a)) (filteredAndSorted config articles) ->
  articles_of_feed (writeArticlesFeed config articles)
  = List.filter has_comments
      (map (fun a : ScoredArticle => parseArticleFromXml (generateRssItem a))
         (filteredAndSorted config articles)).
Proof.
  intros Hdates. unfold articles_of_feed, writeArticlesFeed.
  assert (Hitems :
    match match_items
            (feed_header +:+ join NL (map generateRssItem (filteredAndSorted config articles))
             +:+ feed_footer) with
    | Some l => l
    | None => []
    end = map item_element (filteredAndSorted config articles)).
  { destruct (filteredAndSorted config articles) as [| a rest].
    - reflexivity.
    - rewrite document_feed_text. unfold match_items.
      rewrite (match_all_fuel_feed (elements_from feed_header (a :: rest)) feed_footer);
        [| now apply elements_from_well_formed | reflexivity | lia].
      rewrite elements_from_snd. reflexivity. }
  rewrite Hitems, map_map.
  rewrite (map_ext _ _ parseArticleFromXml_item_element). reflexivity.
Qed.

Lemma articles_of_feed_writeArticlesFeed_witness :
  articles_of_feed (writeArticlesFeed CONFIG articles_numeric)
  = List.filter has_comments
      (map (fun a : ScoredArticle => parseArticleFromXml (generateRssItem a))
         (filteredAndSorted CONFIG articles_numeric)).
Proof.
  apply (articles_of_feed_writeArticlesFeed CONFIG articles_numeric).
  repeat constructor.
Defined.

(** ** The order of requests and delays *)

Section TraceFacts.
Variable JSON_parse : string -> parsed.
Variable net : nat -> string -> response.
Variable config : Config.

Lemma fetchArticleScore_fuel_trace (url : string) (fuel : nat) :
  forall (rc : Z) (w : World) (s : jsnum) (w' : World),
    fetchArticleScore_fuel JSON_parse net config fuel url rc w = Some (s, w') ->
    exists n : nat,
      Z.of_nat n <= Z.max 0 (maxRetries config - rc) /\
      trace w' = rev (retry_events (url +:+ ".json") (retryDelay config) rc n) ++ trace w.
Proof.
  induction fuel as [| fuel IH]; intros rc w s w' Hrun; [discriminate |].
  rewrite fetchArticleScore_fuel_step in Hrun.
  destruct (attempt JSON_parse config rc (net (fetch_count w) (url +:+ ".json")))
    as [s0 | delay] eqn:Hstep.
  - injection Hrun as <- <-. exists 0%nat. split; [lia | reflexivity].
  - destruct (attempt_retry_inv _ _ _ _ _ Hstep) as [Hlt ->].
    destruct (IH _ _ _ _ Hrun) as (n & Hn & Htrace).
    exists (S n). split; [lia |].
    rewrite Htrace. cbn [retry_events rev sleep record trace].
    unfold backoff_delay. rewrite <- !app_assoc. reflexivity.
Qed.

(** X24. A run of [fetchArticleScore] is a request followed by at most
    [maxRetries] rounds of one sleep and one request, the sleep of round
    [i] lasting [retryDelay * 2^i]; it has no other effect. *)
Theorem fetchArticleScore_trace (url : string) (w : World) :
  exists n : nat,
    Z.of_nat n <= Z.max 0 (maxRetries config) /\
    trace (snd (fetchArticleScore JSON_parse net config url 0 w))
    = rev (retry_events (url +:+ ".json") (retryDelay config) 0 n) ++ trace w.
Proof.
  destruct (fetchArticleScore_run JSON_parse net config url 0 w)
    as (k & s & w' & Hrun & Hfuel & _).
  rewrite Hrun. cbn [snd].
  destruct (fetchArticleScore_fuel_trace url _ _ _ _ _ Hfuel) as (n & Hn & Htrace).
  exists n. split; [| exact Htrace]. now rewrite Z.sub_0_r in Hn.
Qed.

End TraceFacts.
